(** * A shallow embedding of three pieces of the reactive-stream runtime

    - [ArgumentOutOfRangeError]  (util/ArgumentOutOfRangeError)
    - [EverySubscriber]          (operators/every)
    - [RetryWhenSubscriber]      (operators/retryWhen)

    Objects are records, fields keep the names of the source, methods are
    functions in a small state-and-exception monad: JavaScript methods mutate
    [this] and may throw, so a method is a function from the object (and the
    part of the world it touches) to a completion and the new object. *)

From Stdlib Require Import List ZArith Bool String Lia Arith PeanoNat.
Import ListNotations.

Set Implicit Arguments.

(** ** Thrown values, notifications, completions *)

(** What user code can throw or push as an error.  [TypeError] is what the
    runtime raises on a property access on [null]; [OutOfFuel] is only
    raised by the fuel-bounded closed loop of the last part. *)
Inductive err : Type :=
| UserError (code : Z)
| TypeError
| OutOfFuel.

(** The three calls of the observer protocol. *)
Inductive notification (T : Type) : Type :=
| NextN (v : T)
| ErrorN (e : err)
| CompleteN.
Arguments NextN {T} v.
Arguments ErrorN {T} e.
Arguments CompleteN {T}.

Definition is_terminal {T} (n : notification T) : bool :=
  match n with NextN _ => false | _ => true end.

(** A call either returns or throws. *)
Inductive completion (A : Type) : Type :=
| Normal (a : A)
| Throw (e : err).
Arguments Normal {A} a.
Arguments Throw {A} e.

(** ** The monad of methods: state passing, with exceptions that keep the
    mutations done before the throw. *)
Definition M (W A : Type) : Type := W -> completion A * W.

Definition ret {W A} (a : A) : M W A := fun w => (Normal a, w).

Definition bind {W A B} (m : M W A) (k : A -> M W B) : M W B :=
  fun w => match m w with
           | (Normal a, w') => k a w'
           | (Throw e, w') => (Throw e, w')
           end.

Definition throw {W A} (e : err) : M W A := fun w => (Throw e, w).

Definition gets {W A} (f : W -> A) : M W A := fun w => (Normal (f w), w).

Definition modify {W} (f : W -> W) : M W unit := fun w => (Normal tt, f w).

(** [try { m } catch (e) { h e }] *)
Definition try_catch {W A} (m : M W A) (h : err -> M W A) : M W A :=
  fun w => match m w with
           | (Normal a, w') => (Normal a, w')
           | (Throw e, w') => h e w'
           end.

(** The result of a pure user callback, lifted into the monad. *)
Definition lift {W A} (c : completion A) : M W A := fun w => (c, w).

Declare Scope method_scope.
Delimit Scope method_scope with method.
Notation "x <- c1 ;; c2" := (bind c1 (fun x => c2))
  (at level 61, c1 at next level, right associativity) : method_scope.
Notation "c1 ;; c2" := (bind c1 (fun _ => c2))
  (at level 61, right associativity) : method_scope.
Local Open Scope method_scope.

(** [for (const x of xs) f(x)] *)
Fixpoint for_each {W A} (f : A -> M W unit) (xs : list A) : M W unit :=
  match xs with
  | [] => ret tt
  | x :: xs' => f x ;; for_each f xs'
  end.

Definition returns {W A} (m : M W A) (w : W) : Prop :=
  exists a w', m w = (Normal a, w').

(** ** The downstream consumer *)

Module Guard.

(** Modelled from the spec: the Consumer Guard that stands downstream of
    an operator (the [Subscriber] behind [this.destination], whose class
    is not among the sources).  "Tracks a single boolean stopped flag";
    "before stopped: value forwards ...; fail/complete mark the guard
    stopped, forward once ...; after stopped: all three are no-ops".  What
    the guard forwards is recorded in [received], in order. *)
Record t (T : Type) : Type := mk {
  stopped : bool;
  received : list (notification T)
}.
Arguments mk {T} stopped received.

Definition fresh {T} : t T := mk false [].

Definition value {T} (v : T) (g : t T) : t T :=
  if stopped g then g else mk false (received g ++ [NextN v]).

Definition fail {T} (e : err) (g : t T) : t T :=
  if stopped g then g else mk true (received g ++ [ErrorN e]).

Definition complete {T} (g : t T) : t T :=
  if stopped g then g else mk true (received g ++ [CompleteN]).

Definition call {T} (n : notification T) (g : t T) : t T :=
  match n with
  | NextN v => value v g
  | ErrorN e => fail e g
  | CompleteN => complete g
  end.

Definition terminals {T} (g : t T) : nat :=
  List.length (filter is_terminal (received g)).

End Guard.

(** ** operators/every *)

Module Every.

(** [EverySubscriber<T>], with the two fields of the [Subscriber] base
    class that the methods read ([isStopped], [closed]). *)
Record EverySubscriber : Type := mk {
  isStopped : bool;
  closed : bool;
  index : nat;
  destination : Guard.t bool
}.

Definition set_isStopped (b : bool) (w : EverySubscriber) :=
  mk b (closed w) (index w) (destination w).
Definition set_closed (b : bool) (w : EverySubscriber) :=
  mk (isStopped w) b (index w) (destination w).
Definition set_index (i : nat) (w : EverySubscriber) :=
  mk (isStopped w) (closed w) i (destination w).
Definition set_destination (g : Guard.t bool) (w : EverySubscriber) :=
  mk (isStopped w) (closed w) (index w) g.

(** [new EverySubscriber(destination, predicate, thisArg, source)] *)
Definition create (d : Guard.t bool) : EverySubscriber := mk false false 0 d.

Section Methods.

(** [predicate.call(thisArg, value, index, source)]: a user callback,
    which may throw. *)
Variable predicate : Z -> nat -> completion bool.

(** Modelled from the spec: [Subscriber.unsubscribe] of the base class
    (closing the guard's Disposal Node: idempotent, marks the node
    closed and the guard stopped). *)
Definition unsubscribe : M EverySubscriber unit :=
  fun w => if closed w then (Normal tt, w)
           else (Normal tt, set_closed true (set_isStopped true w)).

(** [this.destination.next(v)] *)
Definition destination_next (v : bool) : M EverySubscriber unit :=
  modify (fun w => set_destination (Guard.value v (destination w)) w).

(** Modelled from the spec: a terminal call on the destination.  The
    destination guard "marks the guard stopped, forwards once, and
    closes the owned Disposal Node"; [super(destination)] registered
    this subscriber in that node, so closing it unsubscribes this
    subscriber ("closing a Disposal Node immediately and recursively
    closes every currently-registered child"). *)
Definition destination_terminal (f : Guard.t bool -> Guard.t bool)
  : M EverySubscriber unit :=
  fun w => if Guard.stopped (destination w) then (Normal tt, w)
           else unsubscribe (set_destination (f (destination w)) w).

Definition destination_error (e : err) := destination_terminal (Guard.fail e).
Definition destination_complete := destination_terminal Guard.complete.

(** [private notifyComplete(everyValueMatch)] *)
Definition notifyComplete (everyValueMatch : bool) : M EverySubscriber unit :=
  destination_next everyValueMatch ;;
  destination_complete.

(** [protected _next(value)]; [None] stands for the [return] inside
    the [catch]. *)
Definition _next (value : Z) : M EverySubscriber unit :=
  i <- gets index ;;
  modify (set_index (S i)) ;;
  r <- try_catch (b <- lift (predicate value i) ;; ret (Some b))
                 (fun e => destination_error e ;; ret None) ;;
  match r with
  | None => ret tt
  | Some result => if negb result then notifyComplete false else ret tt
  end.

(** [protected _complete()] *)
Definition _complete : M EverySubscriber unit := notifyComplete true.

(** Modelled from the spec: [_error] of the base class, which
    [EverySubscriber] does not override: forward and close. *)
Definition _error (e : err) : M EverySubscriber unit :=
  destination_error e ;; unsubscribe.

(** Modelled from the spec: the public entry points of the base class
    [Subscriber] ("after stopped: all three are no-ops"), dispatching to
    the protected methods above. *)
Definition next (value : Z) : M EverySubscriber unit :=
  s <- gets isStopped ;;
  if s then ret tt else _next value.

Definition error (e : err) : M EverySubscriber unit :=
  s <- gets isStopped ;;
  if s then ret tt else (modify (set_isStopped true) ;; _error e).

Definition complete : M EverySubscriber unit :=
  s <- gets isStopped ;;
  if s then ret tt else (modify (set_isStopped true) ;; _complete).

Definition deliver (n : notification Z) : M EverySubscriber unit :=
  match n with
  | NextN v => next v
  | ErrorN e => error e
  | CompleteN => complete
  end.

(** The source pushing a sequence of notifications into the subscriber
    freshly built on an unused destination. *)
Definition run (ns : list (notification Z)) : completion unit * EverySubscriber :=
  for_each deliver ns (create Guard.fresh).

(** What the downstream consumer has observed after the source pushed [ns]. *)
Definition output (ns : list (notification Z)) : list (notification bool) :=
  Guard.received (destination (snd (run ns))).

End Methods.

End Every.

(** ** util/ArgumentOutOfRangeError *)

Module ArgumentOutOfRange.

(** Prototype objects.  [ImplPrototype] is the object built by
    [Object.create(Error.prototype)] and stored in
    [ArgumentOutOfRangeErrorImpl.prototype]. *)
Inductive prototype : Type :=
| ObjectPrototype
| ErrorPrototype
| ImplPrototype.

Definition prototype_eqb (p q : prototype) : bool :=
  match p, q with
  | ObjectPrototype, ObjectPrototype => true
  | ErrorPrototype, ErrorPrototype => true
  | ImplPrototype, ImplPrototype => true
  | _, _ => false
  end.

(** [[[Prototype]]] of a prototype object. *)
Definition parent (p : prototype) : option prototype :=
  match p with
  | ObjectPrototype => None
  | ErrorPrototype => Some ObjectPrototype
  | ImplPrototype => Some ErrorPrototype
  end.

(** An object: its prototype and its own string-valued properties, the
    latest assignment first. *)
Record object : Type := mkObject {
  proto : prototype;
  props : list (string * string)
}.

Definition get (key : string) (o : object) : option string :=
  match find (fun kv => String.eqb (fst kv) key) (props o) with
  | Some kv => Some (snd kv)
  | None => None
  end.

(** [o[key] = v] *)
Definition set (key v : string) (o : object) : object :=
  mkObject (proto o)
           ((key, v) :: filter (fun kv => negb (String.eqb (fst kv) key)) (props o)).

Definition own_keys (o : object) : list string := map fst (props o).

(** [o instanceof C], where [C.prototype] is [p]: walk up the chain
    (three prototypes, so three steps reach the top). *)
Fixpoint chain_has (n : nat) (p : prototype) (q : prototype) : bool :=
  prototype_eqb q p ||
  match n with
  | 0 => false
  | S n' => match parent q with
            | Some q' => chain_has n' p q'
            | None => false
            end
  end.

Definition instanceof (o : object) (p : prototype) : bool :=
  chain_has 3 p (proto o).

(** [Error.call(this)]: called as a function, [Error] builds and returns
    a new error object and leaves [this] alone; the result is dropped. *)
Definition Error_call (this : object) : object := this.

(** [new Error(message)], the ordinary error of user code; [name] is
    inherited from [Error.prototype]. *)
Definition new_Error (message : string) : object :=
  mkObject ErrorPrototype [("message", message)]%string.

Definition Error_prototype_name : string := "Error".

(** [function ArgumentOutOfRangeErrorImpl(this: Error)] *)
Definition ArgumentOutOfRangeErrorImpl (this : object) : object :=
  let this := Error_call this in
  let this := set "message" "argument out of range.ts" this in
  let this := set "name" "ArgumentOutOfRangeError.ts" this in
  this.

(** [new ArgumentOutOfRangeError()]: the constructor signature is
    [new(): ArgumentOutOfRangeError], no argument. *)
Definition new_ArgumentOutOfRangeError : object :=
  ArgumentOutOfRangeErrorImpl (mkObject ImplPrototype []).

(** Property read through the prototype chain, for [name]. *)
Definition name_of (o : object) : string :=
  match get "name" o with
  | Some n => n
  | None => Error_prototype_name
  end.

End ArgumentOutOfRange.

(** ** operators/retryWhen *)

Module RetryWhen.

(** Calls made on the collaborators of the subscriber, in the order they
    are made.  Subjects, notifier subscriptions and source subscriptions
    are named by numbers. *)
Inductive event : Type :=
| NewSubject (s : nat)                     (* [new Subject()] *)
| CallNotifier (s : nat)                   (* [notifier(errors)] *)
| SubscribeToResult (r : nat) (sub : nat)  (* [subscribeToResult(this, retries)] *)
| SubjectNext (s : nat) (e : err)          (* [errors.next(err)] *)
| SubjectUnsubscribe (s : nat)             (* [errors.unsubscribe()] *)
| SubscriptionUnsubscribe (sub : nat)      (* [retriesSubscription.unsubscribe()] *)
| InnerTerminal (sub : nat)                (* the notifier stream ended *)
| SourceSubscribe (k : nat)                (* [this.source.subscribe(this)], k-th time *)
| SourceTeardown (k : nat).                (* teardown of the k-th source subscription *)

(** The one method a [_unsubscribe] slot of this class can hold. *)
Inductive method : Type := RetryWhenSubscriber_unsubscribe.

(** [RetryWhenSubscriber<T, R>]: the three private fields of the class,
    and the fields of the base classes its methods touch. *)
Record RetryWhenSubscriber : Type := mkThis {
  isStopped : bool;
  closed : bool;
  _subscriptions : list nat;
  _unsubscribe : option method;
  errors : option nat;
  retries : option nat;
  retriesSubscription : option nat;
  destination : Guard.t Z
}.

(** The subscriber together with the part of the world its methods
    touch: the allocation counter, the trace of calls on collaborators,
    the number of source subscriptions made, and the call stack depth
    (current and deepest), which only [call] changes. *)
Record world : Type := mkWorld {
  this : RetryWhenSubscriber;
  allocated : nat;
  trace : list event;
  attempts : nat;
  stack : nat;
  deepest : nat
}.

Definition set_isStopped (b : bool) (t : RetryWhenSubscriber) :=
  mkThis b (closed t) (_subscriptions t) (_unsubscribe t) (errors t) (retries t)
         (retriesSubscription t) (destination t).
Definition set_closed (b : bool) (t : RetryWhenSubscriber) :=
  mkThis (isStopped t) b (_subscriptions t) (_unsubscribe t) (errors t) (retries t)
         (retriesSubscription t) (destination t).
Definition set_subscriptions (l : list nat) (t : RetryWhenSubscriber) :=
  mkThis (isStopped t) (closed t) l (_unsubscribe t) (errors t) (retries t)
         (retriesSubscription t) (destination t).
Definition set_unsubscribe (h : option method) (t : RetryWhenSubscriber) :=
  mkThis (isStopped t) (closed t) (_subscriptions t) h (errors t) (retries t)
         (retriesSubscription t) (destination t).
Definition set_errors (x : option nat) (t : RetryWhenSubscriber) :=
  mkThis (isStopped t) (closed t) (_subscriptions t) (_unsubscribe t) x (retries t)
         (retriesSubscription t) (destination t).
Definition set_retries (x : option nat) (t : RetryWhenSubscriber) :=
  mkThis (isStopped t) (closed t) (_subscriptions t) (_unsubscribe t) (errors t) x
         (retriesSubscription t) (destination t).
Definition set_retriesSubscription (x : option nat) (t : RetryWhenSubscriber) :=
  mkThis (isStopped t) (closed t) (_subscriptions t) (_unsubscribe t) (errors t)
         (retries t) x (destination t).
Definition set_destination (g : Guard.t Z) (t : RetryWhenSubscriber) :=
  mkThis (isStopped t) (closed t) (_subscriptions t) (_unsubscribe t) (errors t)
         (retries t) (retriesSubscription t) g.

Definition on_this (f : RetryWhenSubscriber -> RetryWhenSubscriber) (w : world) :=
  mkWorld (f (this w)) (allocated w) (trace w) (attempts w) (stack w) (deepest w).
Definition set_allocated (n : nat) (w : world) :=
  mkWorld (this w) n (trace w) (attempts w) (stack w) (deepest w).
Definition set_trace (l : list event) (w : world) :=
  mkWorld (this w) (allocated w) l (attempts w) (stack w) (deepest w).
Definition set_attempts (n : nat) (w : world) :=
  mkWorld (this w) (allocated w) (trace w) n (stack w) (deepest w).
Definition set_stack (n : nat) (w : world) :=
  mkWorld (this w) (allocated w) (trace w) (attempts w) n (deepest w).
Definition set_deepest (n : nat) (w : world) :=
  mkWorld (this w) (allocated w) (trace w) (attempts w) (stack w) n.

(** [this.f] and [this.f = x] *)
Definition read {A} (f : RetryWhenSubscriber -> A) : M world A :=
  gets (fun w => f (this w)).
Definition assign (f : RetryWhenSubscriber -> RetryWhenSubscriber) : M world unit :=
  modify (on_this f).

Definition emit (e : event) : M world unit :=
  modify (fun w => set_trace (trace w ++ [e]) w).

Definition allocate : M world nat :=
  fun w => (Normal (allocated w), set_allocated (S (allocated w)) w).

(** [new RetryWhenSubscriber(destination, notifier, source)]: the field
    initialisers of the class, the base class defaults, and [_unsubscribe]
    resolving to the method of the class. *)
Definition create (d : Guard.t Z) : RetryWhenSubscriber :=
  mkThis false false [] (Some RetryWhenSubscriber_unsubscribe) None None None d.

Definition initial : world := mkWorld (create Guard.fresh) 0 [] 0 0 0.

(** [new Subject()] *)
Definition new_Subject : M world nat :=
  s <- allocate ;; emit (NewSubject s) ;; ret s.

(** Modelled from the spec: [subscribeToResult(this, retries)], which is
    not among the sources: "subscribe to it" (the notifier Stream); the
    subscription it returns gets a fresh name. *)
Definition subscribeToResult (r : nat) : M world (option nat) :=
  sub <- allocate ;; emit (SubscribeToResult r sub) ;; ret (Some sub).

(** [_unsubscribe()], lines 128-139. *)
Definition RetryWhen_unsubscribe : M world unit :=
  errors0 <- read errors ;;
  retriesSubscription0 <- read retriesSubscription ;;
  match errors0 with
  | Some s => emit (SubjectUnsubscribe s) ;; assign (set_errors None)
  | None => ret tt
  end ;;
  match retriesSubscription0 with
  | Some sub => emit (SubscriptionUnsubscribe sub) ;;
                assign (set_retriesSubscription None)
  | None => ret tt
  end ;;
  assign (set_retries None).

Definition run_method (m : method) : M world unit :=
  match m with RetryWhenSubscriber_unsubscribe => RetryWhen_unsubscribe end.

(** Running the registered teardowns: the source subscriptions that were
    added to this subscriber. *)
Definition run_teardowns (subs : list nat) : M world unit :=
  for_each (fun k => emit (SourceTeardown k)) subs.

(** Modelled from the spec: [unsubscribe()] of the base classes, the
    closing of the guard's Disposal Node: a no-op on a closed node;
    otherwise the guard is stopped, the node closed, the class's own
    [_unsubscribe] run if the slot holds a function, and every registered
    teardown (the source subscriptions added to this subscriber) run once,
    in registration order. *)
Definition unsubscribe : M world unit :=
  c <- read closed ;;
  if c then ret tt else
    assign (set_isStopped true) ;;
    assign (set_closed true) ;;
    subs <- read _subscriptions ;;
    assign (set_subscriptions []) ;;
    h <- read _unsubscribe ;;
    match h with
    | Some m => run_method m
    | None => ret tt
    end ;;
    run_teardowns subs.

(** Modelled from the spec: [_unsubscribeAndRecycle()] of the base class,
    the teardown that does "not fully destroy": what is registered on the
    subscriber is torn down as by [unsubscribe], then the subscriber is
    made usable again. *)
Definition _unsubscribeAndRecycle : M world unit :=
  unsubscribe ;;
  assign (set_closed false) ;;
  assign (set_isStopped false).

(** [this.destination.next(v)] *)
Definition destination_next (v : Z) : M world unit :=
  assign (fun t => set_destination (Guard.value v (destination t)) t).

(** Modelled from the spec: a terminal call on the destination guard,
    which stops, forwards once and closes its Disposal Node, where
    [super(destination)] registered this subscriber. *)
Definition destination_terminal (f : Guard.t Z -> Guard.t Z) : M world unit :=
  d <- read destination ;;
  if Guard.stopped d then ret tt
  else assign (set_destination (f d)) ;; unsubscribe.

Definition destination_error (e : err) := destination_terminal (Guard.fail e).
Definition destination_complete := destination_terminal Guard.complete.

(** Modelled from the spec: [Subscriber.error], reached as [super.error(e)]. *)
Definition Subscriber_error (e : err) : M world unit :=
  s <- read isStopped ;;
  if s then ret tt else
    assign (set_isStopped true) ;;
    destination_error e ;;
    unsubscribe.

(** Modelled from the spec: [Subscriber.next] and [Subscriber.complete],
    which the class inherits. *)
Definition next (v : Z) : M world unit :=
  s <- read isStopped ;;
  if s then ret tt else destination_next v.

Definition complete : M world unit :=
  s <- read isStopped ;;
  if s then ret tt else
    assign (set_isStopped true) ;;
    destination_complete ;;
    unsubscribe.

(** Modelled from the spec: [notifyError] and [notifyComplete] of
    [OuterSubscriber], which the class inherits: "on notifier completion
    or failure, forward the corresponding terminal notification
    downstream". *)
Definition notifyError (e : err) : M world unit := destination_error e.
Definition notifyComplete : M world unit := destination_complete.

Section Methods.

(** [this.notifier]: the user's function from the channel to the
    notifier stream; it may throw. *)
Variable notifier : nat -> completion nat.
(** [errors.next(err)] on the channel [s]. *)
Variable Subject_next : nat -> err -> M world unit.
(** [this.source.subscribe(this)] *)
Variable source_subscribe : M world unit.

(** Lines 117-123, after the two branches have chosen [errors],
    [retries] and [retriesSubscription]. *)
Definition error_tail (errors0 retries0 retriesSubscription0 : option nat)
           (err0 : err) : M world unit :=
  _unsubscribeAndRecycle ;;
  assign (set_errors errors0) ;;
  assign (set_retries retries0) ;;
  assign (set_retriesSubscription retriesSubscription0) ;;
  match errors0 with
  | Some s => Subject_next s err0
  | None => throw TypeError
  end.

(** [error(err)], lines 96-125; [inl] stands for the
    [return super.error(e)] of the [catch]. *)
Definition error (err0 : err) : M world unit :=
  stopped <- read isStopped ;;
  if stopped then ret tt else
    errors0 <- read errors ;;
    retries0 <- read retries ;;
    retriesSubscription0 <- read retriesSubscription ;;
    match retries0 with
    | None =>
        s <- new_Subject ;;
        r <- try_catch (emit (CallNotifier s) ;;
                        x <- lift (notifier s) ;; ret (inr x))
                       (fun e => Subscriber_error e ;; ret (inl tt)) ;;
        match r with
        | inl _ => ret tt
        | inr retries1 =>
            retriesSubscription1 <- subscribeToResult retries1 ;;
            error_tail (Some s) (Some retries1) retriesSubscription1 err0
        end
    | Some _ =>
        assign (set_errors None) ;;
        assign (set_retriesSubscription None) ;;
        error_tail errors0 retries0 retriesSubscription0 err0
    end.

(** [notifyNext(...)], lines 141-151. *)
Definition notifyNext : M world unit :=
  _unsubscribe0 <- read _unsubscribe ;;
  assign (set_unsubscribe None) ;;
  _unsubscribeAndRecycle ;;
  assign (set_unsubscribe _unsubscribe0) ;;
  source_subscribe.

End Methods.

End RetryWhen.

(** ** The retry subscriber in a synchronous world

    The methods above leave [errors.next] and [source.subscribe] open.
    Here the loop is closed for sources and notifiers that push
    synchronously, with every call that is still on the stack during a
    resubscription counted by [call]. *)

Module Synchronous.
Import RetryWhen.

(** The user's side: what the source pushes, synchronously, on its k-th
    subscription; the notifier function; and what the notifier stream
    pushes to its subscriber, synchronously, when the k-th error is pushed
    into the channel. *)
Record environment : Type := mkEnv {
  source : nat -> list (notification Z);
  notifier : nat -> completion nat;
  notifier_stream : nat -> err -> list (notification Z)
}.

(** One stack frame around [m]: the frame is popped on return and on
    throw alike. *)
Definition call {A} (m : M world A) : M world A :=
  fun w =>
    let d := S (stack w) in
    let (r, w') := m (set_deepest (Nat.max (deepest w) d) (set_stack d w)) in
    (r, set_stack (stack w) w').

Definition is_push (e : event) : bool :=
  match e with SubjectNext _ _ => true | _ => false end.

Definition pushes (tr : list event) : nat := List.length (filter is_push tr).

(** The notifier subscription [sub] no longer listens: it was
    unsubscribed, or its stream ended. *)
Definition ends (sub : nat) (e : event) : bool :=
  match e with
  | SubscriptionUnsubscribe s => Nat.eqb s sub
  | InnerTerminal s => Nat.eqb s sub
  | _ => false
  end.

Definition listening (sub : nat) (tr : list event) : bool :=
  negb (existsb (ends sub) tr).

Section Loop.

Variable env : environment.

(** Modelled from the spec: the inner subscriber made by
    [subscribeToResult], a Consumer Guard whose three handlers are
    [notifyNext], [notifyError] and [notifyComplete] of the retry
    subscriber. *)
Definition inner_deliver (resubscribe : M world unit) (sub : nat)
           (n : notification Z) : M world unit :=
  live <- gets (fun w => listening sub (trace w)) ;;
  if live then
    match n with
    | NextN _ => call (notifyNext resubscribe)
    | ErrorN e => emit (InnerTerminal sub) ;; call (notifyError e)
    | CompleteN => emit (InnerTerminal sub) ;; call notifyComplete
    end
  else ret tt.

(** Modelled from the spec: [Subject.next] on the channel, which the
    notifier stream is derived from: the value reaches the subscriber
    of the notifier stream within the same call ("delivery within one
    subscription chain is fully synchronous, depth-first"). *)
Definition Subject_next (resubscribe : M world unit) (s : nat) (e : err)
  : M world unit :=
  call (k <- gets (fun w => pushes (trace w)) ;;
        emit (SubjectNext s e) ;;
        sub <- read retriesSubscription ;;
        match sub with
        | Some i => for_each (inner_deliver resubscribe i) (notifier_stream env k e)
        | None => ret tt
        end).

(** The source calling the subscriber. *)
Definition deliver (resubscribe : M world unit) (n : notification Z)
  : M world unit :=
  match n with
  | NextN v => call (next v)
  | ErrorN e => call (error (notifier env) (Subject_next resubscribe) e)
  | CompleteN => call complete
  end.

(** Modelled from the spec: [sink.add(teardown)] at the end of
    [source.subscribe(sink)]: "once closed, adding a new teardown action
    executes it immediately instead of storing it". *)
Definition add_teardown (k : nat) : M world unit :=
  c <- read closed ;;
  if c then emit (SourceTeardown k)
  else assign (fun t => set_subscriptions (_subscriptions t ++ [k]) t).

(** Modelled from the spec: [this.source.subscribe(this)]: the
    producer runs within the call, and what it returns is attached to
    the subscriber.  One unit of fuel per subscription. *)
Fixpoint source_subscribe (fuel : nat) : M world unit :=
  match fuel with
  | 0 => throw OutOfFuel
  | S fuel' =>
      call (k <- gets attempts ;;
            modify (set_attempts (S k)) ;;
            emit (SourceSubscribe k) ;;
            for_each (deliver (source_subscribe fuel')) (source env k) ;;
            add_teardown k)
  end.

(** [source.pipe(retryWhen(notifier)).subscribe(...)] *)
Definition run (fuel : nat) : completion unit * world :=
  source_subscribe fuel initial.

End Loop.

(** Source subscriptions that were made and not torn down. *)
Definition live_subscriptions (tr : list event) : list nat :=
  filter (fun k => negb (existsb (fun e => match e with
                                           | SourceTeardown j => Nat.eqb j k
                                           | _ => false end) tr))
         (flat_map (fun e => match e with SourceSubscribe k => [k] | _ => [] end) tr).

(** A source that fails synchronously on its first [n] subscriptions and
    completes on the next, and [retryWhen(errors => errors)]: the notifier
    stream is the channel itself, every error pushed comes back as a
    notifier value. *)
Definition failing_source (n : nat) (k : nat) : list (notification Z) :=
  if Nat.ltb k n then [ErrorN (UserError (Z.of_nat k))] else [CompleteN].

Definition retry_echo (n : nat) : environment :=
  mkEnv (failing_source n) (fun s => Normal s) (fun _ _ => [NextN 0%Z]).

(** The deepest call stack reached when the source fails [n] times in a row. *)
Definition resubscription_depth (n : nat) : nat :=
  deepest (snd (run (retry_echo n) (S n))).

End Synchronous.

(** ** The same loop on a stack that holds a given number of frames *)

Module Bounded.
Import RetryWhen.

Section Loop.

(** The number of frames the host's call stack holds, and what the host
    throws when a call needs one more. *)
Variable limit : nat.
Variable overflow : err.
Variable env : Synchronous.environment.

(** One stack frame around [m], if the stack has room for it. *)
Definition call {A} (m : M world A) : M world A :=
  fun w => if Nat.ltb limit (S (stack w)) then (Throw overflow, w)
           else Synchronous.call m w.

Definition inner_deliver (resubscribe : M world unit) (sub : nat)
           (n : notification Z) : M world unit :=
  live <- gets (fun w => Synchronous.listening sub (trace w)) ;;
  if live then
    match n with
    | NextN _ => call (notifyNext resubscribe)
    | ErrorN e => emit (InnerTerminal sub) ;; call (notifyError e)
    | CompleteN => emit (InnerTerminal sub) ;; call notifyComplete
    end
  else ret tt.

Definition Subject_next (resubscribe : M world unit) (s : nat) (e : err)
  : M world unit :=
  call (k <- gets (fun w => Synchronous.pushes (trace w)) ;;
        emit (SubjectNext s e) ;;
        sub <- read retriesSubscription ;;
        match sub with
        | Some i => for_each (inner_deliver resubscribe i)
                             (Synchronous.notifier_stream env k e)
        | None => ret tt
        end).

Definition deliver (resubscribe : M world unit) (n : notification Z)
  : M world unit :=
  match n with
  | NextN v => call (next v)
  | ErrorN e => call (error (Synchronous.notifier env) (Subject_next resubscribe) e)
  | CompleteN => call complete
  end.

Fixpoint source_subscribe (fuel : nat) : M world unit :=
  match fuel with
  | 0 => throw OutOfFuel
  | S fuel' =>
      call (k <- gets attempts ;;
            modify (set_attempts (S k)) ;;
            emit (SourceSubscribe k) ;;
            for_each (deliver (source_subscribe fuel')) (Synchronous.source env k) ;;
            Synchronous.add_teardown k)
  end.

Definition run (fuel : nat) : completion unit * world :=
  source_subscribe fuel initial.

End Loop.

End Bounded.

(** ** Inputs of the worked examples *)

(** The predicate "value < bound" of the examples; it ignores the index. *)
Definition below (bound : Z) : Z -> nat -> completion bool :=
  fun v _ => Normal (v <? bound)%Z.

(** A source emitting the values [vs], in order. *)
Definition values {T} (vs : list T) : list (notification T) := map NextN vs.

(** A source that emits 1, 2, 3 and fails on its first subscription, and
    emits 1, 2, 3 and completes on the later ones, under
    [retryWhen(errors => errors)]. *)
Definition fails_once : Synchronous.environment :=
  Synchronous.mkEnv
    (fun k => if Nat.eqb k 0 then values [1; 2; 3]%Z ++ [ErrorN (UserError 0)]
              else values [1; 2; 3]%Z ++ [CompleteN])
    (fun s => Normal s)
    (fun _ _ => [NextN 0%Z]).

(** A source that always fails, and a notifier stream that completes, or
    fails with [x], on the first error it sees. *)
Definition notifier_ends (n : notification Z) : Synchronous.environment :=
  Synchronous.mkEnv (fun _ => [ErrorN (UserError 0)]) (fun s => Normal s) (fun _ _ => [n]).

(** A source that emits the values [vs k] on its k-th subscription, then
    fails if [k < n] and completes otherwise, under
    [retryWhen(errors => errors)]. *)
Definition attempt_script (vs : nat -> list Z) (n k : nat) : list (notification Z) :=
  values (vs k) ++
  (if Nat.ltb k n then [ErrorN (UserError (Z.of_nat k))] else [CompleteN]).

Definition retry_mirror (vs : nat -> list Z) (n : nat) : Synchronous.environment :=
  Synchronous.mkEnv (attempt_script vs n) (fun s => Normal s) (fun _ _ => [NextN 0%Z]).

(** The calls made from the k-th subscription on, when [m] more failures
    are to come: each failed attempt is subscribed, its error pushed into the
    channel [s], and its teardown run when the nested attempts have
    returned; the last attempt completes, which releases the channel and the
    notifier subscription [sub]. *)
Fixpoint echo_trace (s sub k m : nat) : list RetryWhen.event :=
  match m with
  | 0 => [RetryWhen.SourceSubscribe k; RetryWhen.SubjectUnsubscribe s;
          RetryWhen.SubscriptionUnsubscribe sub; RetryWhen.SourceTeardown k]
  | S m' => RetryWhen.SourceSubscribe k
            :: RetryWhen.SubjectNext s (UserError (Z.of_nat k))
            :: echo_trace s sub (S k) m' ++ [RetryWhen.SourceTeardown k]
  end.

(** How many times the notifier function was called. *)
Definition notifier_calls (tr : list RetryWhen.event) : nat :=
  List.length (filter (fun ev => match ev with
                                 | RetryWhen.CallNotifier _ => true
                                 | _ => false
                                 end) tr).

(** A source that emits [vs] and fails with [e] on every subscription; a
    notifier function that returns a stream, or throws, as [f] says; a
    notifier stream that pushes [reaction] on every error it sees. *)
Definition failing_with (vs : list Z) (e : err) (f : nat -> completion nat)
           (reaction : list (notification Z)) : Synchronous.environment :=
  Synchronous.mkEnv (fun _ => values vs ++ [ErrorN e]) f (fun _ _ => reaction).

(** A guard after a sequence of calls. *)
Definition guard_after {T} (ns : list (notification T)) (g : Guard.t T) : Guard.t T :=
  fold_left (fun g n => Guard.call n g) ns g.

(** The three private fields are set together or not at all. *)
Definition consistent (t : RetryWhen.RetryWhenSubscriber) : bool :=
  match RetryWhen.errors t, RetryWhen.retries t, RetryWhen.retriesSubscription t with
  | Some _, Some _, Some _ => true
  | None, None, None => true
  | _, _, _ => false
  end.

(** The teardown calls that closing the subscriber's node makes. *)
Definition torn_down (t : RetryWhen.RetryWhenSubscriber) : list RetryWhen.event :=
  if RetryWhen.closed t then []
  else map RetryWhen.SourceTeardown (RetryWhen._subscriptions t).

(** The subscriber as [_unsubscribeAndRecycle] leaves it when the
    [_unsubscribe] slot is empty: usable again, with nothing registered. *)
Definition recycled (t : RetryWhen.RetryWhenSubscriber) : RetryWhen.RetryWhenSubscriber :=
  RetryWhen.set_isStopped false
    (RetryWhen.set_closed false
       (if RetryWhen.closed t then t else RetryWhen.set_subscriptions [] t)).

(** Calls that release the notifier machinery. *)
Definition is_release (e : RetryWhen.event) : bool :=
  match e with
  | RetryWhen.SubjectUnsubscribe _ => true
  | RetryWhen.SubscriptionUnsubscribe _ => true
  | _ => false
  end.

(** The subscriptions to the source recorded in a trace. *)
Definition source_subscriptions (tr : list RetryWhen.event) : list RetryWhen.event :=
  filter (fun ev => match ev with RetryWhen.SourceSubscribe _ => true | _ => false end) tr.

(** The retry subscriber makes no further move: every call the source or
    the notifier stream can still make on it returns and changes nothing. *)
Definition inert (w : RetryWhen.world) : Prop :=
  (forall v, RetryWhen.next v w = (Normal tt, w)) /\
  RetryWhen.complete w = (Normal tt, w) /\
  (forall notifier push e, RetryWhen.error notifier push e w = (Normal tt, w)) /\
  (forall e, RetryWhen.notifyError e w = (Normal tt, w)) /\
  RetryWhen.notifyComplete w = (Normal tt, w).

(** From [w] to [w1] the consumer received [n] and nothing else, the
    subscriber ended, and the source was not subscribed. *)
Definition ended_with (n : notification Z) (w w1 : RetryWhen.world) : Prop :=
  Guard.received (RetryWhen.destination (RetryWhen.this w1)) =
    Guard.received (RetryWhen.destination (RetryWhen.this w)) ++ [n] /\
  Guard.stopped (RetryWhen.destination (RetryWhen.this w1)) = true /\
  RetryWhen.isStopped (RetryWhen.this w1) = true /\
  RetryWhen.closed (RetryWhen.this w1) = true /\
  source_subscriptions (RetryWhen.trace w1) = source_subscriptions (RetryWhen.trace w) /\
  RetryWhen.attempts w1 = RetryWhen.attempts w /\
  inert w1.

(** The retry subscriber between two attempts: usable, nothing registered
    on it, the notifier machinery in place. *)
Definition armed (s r sub : nat) (d : Guard.t Z) : RetryWhen.RetryWhenSubscriber :=
  RetryWhen.mkThis false false [] (Some RetryWhen.RetryWhenSubscriber_unsubscribe)
                   (Some s) (Some r) (Some sub) d.

(** [m] keeps the three private fields consistent, whether it returns or
    throws. *)
Definition keeps_consistent {A} (m : M RetryWhen.world A) : Prop :=
  forall w r w',
    consistent (RetryWhen.this w) = true -> m w = (r, w') ->
    consistent (RetryWhen.this w') = true.

(** What a consumer of [every] can have received: nothing yet, the verdict
    and the completion, or one error. *)
Definition every_outcome (l : list (notification bool)) : Prop :=
  l = [] \/ (exists b, l = [NextN b; CompleteN]) \/ (exists e, l = [ErrorN e]).

(** The states of the predicate subscriber: running with nothing sent
    downstream, or ended together with its destination. *)
Definition every_state_ok (w : Every.EverySubscriber) : Prop :=
  (Every.isStopped w = false /\ Every.closed w = false /\
   Every.destination w = Guard.fresh) \/
  (Every.isStopped w = true /\ Every.closed w = true /\
   Guard.stopped (Every.destination w) = true /\
   Guard.received (Every.destination w) <> [] /\
   every_outcome (Guard.received (Every.destination w))).

(** The notifier subscriptions made so far. *)
Definition created (tr : list RetryWhen.event) : list nat :=
  flat_map (fun ev => match ev with
                      | RetryWhen.SubscribeToResult _ sub => [sub]
                      | _ => []
                      end) tr.

(** The life of the notifier machinery, read off the object and the
    trace: not built yet (the notifier function was never called); built,
    by the one call of the notifier function, with its one subscription in
    [retriesSubscription]; or gone for good: the notifier function was
    called once, the fields are null, the subscriber is stopped, and no
    notifier subscription listens any more. *)
Definition machinery_ok (w : RetryWhen.world) : Prop :=
  let t := RetryWhen.this w in
  let tr := RetryWhen.trace w in
  (notifier_calls tr = 0 /\ RetryWhen.errors t = None /\ RetryWhen.retries t = None /\
   RetryWhen.retriesSubscription t = None /\ created tr = [])
  \/
  (notifier_calls tr = 1 /\
   exists s r i, RetryWhen.errors t = Some s /\ RetryWhen.retries t = Some r /\
                 RetryWhen.retriesSubscription t = Some i /\ created tr = [i])
  \/
  (notifier_calls tr = 1 /\ RetryWhen.errors t = None /\ RetryWhen.retries t = None /\
   RetryWhen.retriesSubscription t = None /\ RetryWhen.isStopped t = true /\
   List.length (created tr) <= 1 /\
   forall i, In i (created tr) -> Synchronous.listening i tr = false).

(** The trace only grows. *)
Definition extends (w w' : RetryWhen.world) : Prop :=
  exists tr', RetryWhen.trace w' = RetryWhen.trace w ++ tr'.

(** [m] keeps the machinery in one of its three lives, provided [P] holds
    when it starts. *)
Definition keeps_machinery (P : RetryWhen.world -> Prop) {A} (m : M RetryWhen.world A)
  : Prop :=
  forall w r w',
    machinery_ok w -> P w -> m w = (r, w') -> machinery_ok w' /\ extends w w'.

(** No precondition. *)
Definition always (w : RetryWhen.world) : Prop := True.

(** The notifier subscription [i] was made. *)
Definition was_created (i : nat) (w : RetryWhen.world) : Prop :=
  In i (created (RetryWhen.trace w)).

(** The notifier subscription [i] was made and still listens. *)
Definition still_listening (i : nat) (w : RetryWhen.world) : Prop :=
  was_created i w /\ Synchronous.listening i (RetryWhen.trace w) = true.

(** [mb], run on a stack of [limit] frames, does what [m] does on a stack
    without limit whenever the depth [m] reaches fits; and the depth
    reached never decreases. *)
Definition fits (limit : nat) {A} (m mb : M RetryWhen.world A) : Prop :=
  forall w r w',
    m w = (r, w') ->
    RetryWhen.deepest w <= RetryWhen.deepest w' /\
    (RetryWhen.deepest w' <= limit -> mb w = (r, w')).

(** A guard that is not stopped has forwarded no terminal notification; a
    stopped one at most one. *)
Definition guard_ok {T} (g : Guard.t T) : Prop :=
  if Guard.stopped g then Guard.terminals g <= 1 else Guard.terminals g = 0.

Unset Implicit Arguments.

(** * Properties *)

(** ** The distinguished query error *)

Section ArgumentOutOfRangeFacts.
Import ArgumentOutOfRange.

Lemma get_set_same (k v : string) (o : object) : get k (set k v o) = Some v.
Proof. unfold get, set; simpl. now rewrite String.eqb_refl. Qed.

Lemma get_set_other (k k' v : string) (o : object) :
  k <> k' -> get k' (set k v o) = get k' o.
Proof.
  intros Hk. unfold get, set; simpl.
  destruct (String.eqb k k') eqn:E; [apply String.eqb_eq in E; contradiction|].
  induction (props o) as [|[a b] l IH]; simpl; [reflexivity|].
  destruct (String.eqb a k) eqn:Ea; simpl.
  - apply String.eqb_eq in Ea; subst a. now rewrite E.
  - destruct (String.eqb a k'); [reflexivity | exact IH].
Qed.

(** Whatever object the function body is applied to, it leaves the two
    fixed strings in [message] and [name]. *)
Lemma Impl_fixed_properties (this : object) :
  get "message" (ArgumentOutOfRangeErrorImpl this) = Some "argument out of range.ts"%string /\
  get "name" (ArgumentOutOfRangeErrorImpl this) = Some "ArgumentOutOfRangeError.ts"%string /\
  proto (ArgumentOutOfRangeErrorImpl this) = proto this.
Proof.
  unfold ArgumentOutOfRangeErrorImpl, Error_call.
  split; [|split].
  - rewrite get_set_other by discriminate. apply get_set_same.
  - apply get_set_same.
  - reflexivity.
Qed.

End ArgumentOutOfRangeFacts.

(** C8: the query error takes no argument, every instance is the same
    object up to identity: an [Error] (by its prototype chain) whose only own
    properties are [name] and [message], both fixed strings; a handler tells
    it from an ordinary [new Error(m)] by [instanceof] and by [name]. *)
Theorem ArgumentOutOfRangeError_is_fixed :
  let e := ArgumentOutOfRange.new_ArgumentOutOfRangeError in
  ArgumentOutOfRange.instanceof e ArgumentOutOfRange.ErrorPrototype = true /\
  ArgumentOutOfRange.instanceof e ArgumentOutOfRange.ImplPrototype = true /\
  ArgumentOutOfRange.get "message" e = Some "argument out of range.ts"%string /\
  ArgumentOutOfRange.get "name" e = Some "ArgumentOutOfRangeError.ts"%string /\
  ArgumentOutOfRange.own_keys e = ["name"; "message"]%string /\
  (forall m : string,
      ArgumentOutOfRange.instanceof (ArgumentOutOfRange.new_Error m)
                                    ArgumentOutOfRange.ImplPrototype = false /\
      ArgumentOutOfRange.name_of (ArgumentOutOfRange.new_Error m)
        <> ArgumentOutOfRange.name_of e).
Proof.
  cbv zeta.
  do 5 (split; [reflexivity|]).
  intros m; split; [reflexivity|].
  cbv. discriminate.
Qed.

(** ** The guard *)

Section GuardFacts.
Context {T : Type}.

Lemma guard_stopped_call (g : Guard.t T) (n : notification T) :
  Guard.stopped g = true -> Guard.call n g = g.
Proof.
  intros H. destruct n; simpl; unfold Guard.value, Guard.fail, Guard.complete;
    now rewrite H.
Qed.

Lemma guard_stopped_after (ns : list (notification T)) (g : Guard.t T) :
  Guard.stopped g = true -> guard_after ns g = g.
Proof.
  intros H. induction ns as [|n ns IH]; simpl; [reflexivity|].
  now rewrite (guard_stopped_call _ n H).
Qed.

Lemma filter_terminal_snoc (l : list (notification T)) (n : notification T) :
  filter is_terminal (l ++ [n]) =
  filter is_terminal l ++ (if is_terminal n then [n] else []).
Proof. rewrite filter_app. simpl. now destruct (is_terminal n). Qed.

Lemma guard_ok_call (g : Guard.t T) (n : notification T) :
  guard_ok g -> guard_ok (Guard.call n g).
Proof.
  unfold guard_ok. destruct (Guard.stopped g) eqn:E; intros H.
  - rewrite (guard_stopped_call _ n E), E. exact H.
  - destruct n; simpl; unfold Guard.value, Guard.fail, Guard.complete;
      rewrite E; simpl; unfold Guard.terminals in *; simpl;
      rewrite filter_terminal_snoc, length_app, H; simpl; lia.
Qed.

Lemma guard_ok_after (ns : list (notification T)) (g : Guard.t T) :
  guard_ok g -> guard_ok (guard_after ns g).
Proof.
  revert g. induction ns as [|n ns IH]; simpl; intros g H; [exact H|].
  apply IH. now apply guard_ok_call.
Qed.

Lemma guard_at_most_one_terminal (ns : list (notification T)) :
  Guard.terminals (guard_after ns Guard.fresh) <= 1.
Proof.
  assert (H : guard_ok (guard_after ns (@Guard.fresh T))).
  { apply guard_ok_after. reflexivity. }
  unfold guard_ok in H. destruct (Guard.stopped _); lia.
Qed.

End GuardFacts.

(** ** every *)

Section EveryFacts.
Import Every.
Variable predicate : Z -> nat -> completion bool.

Lemma for_each_app {W A} (f : A -> M W unit) (xs ys : list A) (w : W) :
  for_each f (xs ++ ys) w =
  match for_each f xs w with
  | (Normal _, w') => for_each f ys w'
  | (Throw e, w') => (Throw e, w')
  end.
Proof.
  revert w. induction xs as [|x xs IH]; intros w; simpl; [reflexivity|].
  unfold bind. destruct (f x w) as [[[]|e] w1]; [apply IH | reflexivity].
Qed.

Lemma every_stopped_deliver (n : notification Z) (w : EverySubscriber) :
  isStopped w = true -> deliver predicate n w = (Normal tt, w).
Proof.
  intros H. destruct n; simpl; unfold next, error, complete, bind, gets;
    now rewrite H.
Qed.

(** A stopped subscriber ignores whatever the source still pushes. *)
Lemma every_stopped_absorbs (ns : list (notification Z)) (w : EverySubscriber) :
  isStopped w = true -> for_each (deliver predicate) ns w = (Normal tt, w).
Proof.
  intros H. induction ns as [|n ns IH]; simpl; [reflexivity|].
  unfold bind. now rewrite every_stopped_deliver.
Qed.

(** While every value passes, nothing goes downstream: only the index moves. *)
Lemma every_passing_prefix (vs : list Z) (w : EverySubscriber) :
  isStopped w = false ->
  (forall i v, nth_error vs i = Some v -> predicate v (index w + i) = Normal true) ->
  for_each (deliver predicate) (values vs) w =
  (Normal tt, set_index (index w + List.length vs) w).
Proof.
  revert w. induction vs as [|v vs IH]; intros w Hs Hp; simpl.
  - rewrite Nat.add_0_r. now destruct w.
  - unfold bind at 1. unfold next, bind at 1, gets. rewrite Hs.
    unfold _next, bind, gets, modify, try_catch, lift.
    pose proof (Hp 0 v eq_refl) as H0. rewrite Nat.add_0_r in H0. rewrite H0.
    simpl. unfold ret.
    fold (values vs). rewrite IH.
    + simpl. unfold set_index; simpl. do 3 f_equal. lia.
    + exact Hs.
    + intros i x Hx. simpl. rewrite <- Nat.add_succ_r. now apply (Hp (S i)).
Qed.

(** The first value that fails the predicate ends the stream: [false],
    completion, and the subscriber is closed, whatever follows. *)
Lemma every_first_failure (vs : list Z) (v : Z) (rest : list (notification Z)) :
  (forall i x, nth_error vs i = Some x -> predicate x i = Normal true) ->
  predicate v (List.length vs) = Normal false ->
  run predicate (values vs ++ NextN v :: rest) =
  (Normal tt, mk true true (S (List.length vs)) (Guard.mk true [NextN false; CompleteN])).
Proof.
  intros Hp Hv. unfold run. rewrite for_each_app.
  rewrite every_passing_prefix by (simpl; auto).
  simpl. unfold bind at 1.
  unfold next, _next, bind, gets, modify, try_catch, lift; simpl. rewrite Hv.
  simpl. now rewrite every_stopped_absorbs.
Qed.

(** When every value passes, [true] and completion follow the
    completion of the source. *)
Lemma every_all_pass (vs : list Z) :
  (forall i x, nth_error vs i = Some x -> predicate x i = Normal true) ->
  output predicate (values vs) = [] /\
  run predicate (values vs ++ [CompleteN]) =
  (Normal tt, mk true true (List.length vs) (Guard.mk true [NextN true; CompleteN])).
Proof.
  intros Hp. unfold output, run. rewrite for_each_app.
  rewrite every_passing_prefix by (simpl; auto). split; reflexivity.
Qed.

End EveryFacts.

(** C5: [of(1,2,3,4,5,6).pipe(every(x => x < 5))]: nothing is emitted for
    1..4; on 5 the consumer receives [false] and the completion, and the
    subscriber is closed and stopped at once; the predicate has run five
    times; pushing 6 into it changes nothing, and neither does the rest of
    the source. *)
Theorem every_short_circuit_example :
  let p := below 5 in
  let after5 := snd (Every.run p (values [1; 2; 3; 4; 5]%Z)) in
  Every.output p (values [1; 2; 3; 4]%Z) = [] /\
  Every.output p (values [1; 2; 3; 4; 5]%Z) = [NextN false; CompleteN] /\
  Every.closed after5 = true /\
  Every.isStopped after5 = true /\
  Every.index after5 = 5 /\
  Every.next p 6%Z after5 = (Normal tt, after5) /\
  Every.run p (values [1; 2; 3; 4; 5; 6]%Z ++ [CompleteN]) = (Normal tt, after5).
Proof. cbv zeta. repeat split. Qed.

(** C9: [of(1,2,3).pipe(every(x => x < 10))]: after any number of the
    values, the consumer has received nothing; once the source completes it
    has received exactly [true] and the completion. *)
Theorem every_all_pass_example :
  let p := below 10 in
  (forall k, Every.output p (values (firstn k [1; 2; 3]%Z)) = []) /\
  Every.output p (values [1; 2; 3]%Z ++ [CompleteN]) = [NextN true; CompleteN] /\
  Guard.stopped (Every.destination
                   (snd (Every.run p (values [1; 2; 3]%Z ++ [CompleteN])))) = true.
Proof.
  cbv zeta. split; [|split; reflexivity].
  intros k. do 4 (destruct k as [|k]; [reflexivity|]). reflexivity.
Qed.

(** ** retryWhen: the methods *)

Import RetryWhen.

Ltac open_world w :=
    let st := fresh "st" in let cl := fresh "cl" in let subs := fresh "subs" in
    let h := fresh "h" in let er := fresh "er" in let re := fresh "re" in
    let rs := fresh "rs" in let d := fresh "d" in
    destruct w as [[st cl subs h er re rs d] ? ? ? ? ?]; simpl in *.

Ltac run_method_body :=
    cbv [error error_tail notifyNext notifyError notifyComplete next complete
         Subscriber_error destination_error destination_complete destination_terminal
         destination_next _unsubscribeAndRecycle unsubscribe run_method
         RetryWhen_unsubscribe new_Subject subscribeToResult allocate emit assign read
         bind gets modify ret try_catch lift throw
         on_this set_trace set_allocated
         set_isStopped set_closed set_subscriptions set_unsubscribe set_errors
         set_retries set_retriesSubscription set_destination
         this allocated trace attempts stack deepest
         isStopped closed _subscriptions _unsubscribe errors retries
         retriesSubscription destination].

Section RetryFacts.

Lemma teardown_all (subs : list nat) (w : world) :
  run_teardowns subs w =
  (Normal tt, set_trace (trace w ++ map SourceTeardown subs) w).
Proof.
  unfold run_teardowns.
  revert w. induction subs as [|k subs IH]; intros w; simpl.
  - rewrite app_nil_r. now destruct w.
  - unfold bind, emit at 1, modify. rewrite IH. destruct w; simpl.
    unfold set_trace; simpl. now rewrite <- app_assoc.
Qed.

(** With the [_unsubscribe] slot empty, the recycling tears down the
    source subscriptions and touches nothing else. *)
Lemma recycle_without_hook (w : world) :
  _unsubscribe (this w) = None ->
  _unsubscribeAndRecycle w =
  (Normal tt, set_trace (trace w ++ torn_down (this w)) (on_this recycled w)).
Proof.
  intros H. open_world w. subst. unfold torn_down, recycled. simpl.
  destruct cl; run_method_body.
  - now rewrite app_nil_r.
  - rewrite teardown_all. reflexivity.
Qed.

(** Lines 117-123: whatever the [_unsubscribe] slot holds, when the
    fields [errors] and [retriesSubscription] are empty the recycling
    releases nothing, and the call ends in [errors.next(err)] with the
    three fields set. *)
Lemma error_tail_spec (push : nat -> err -> M world unit)
      (E R RS : option nat) (e : err) (w : world) :
  errors (this w) = None -> retriesSubscription (this w) = None ->
  error_tail push E R RS e w =
  (match E with Some s => push s e | None => throw TypeError end)
    (set_trace (trace w ++ torn_down (this w))
       (on_this (fun t => set_retriesSubscription RS
                            (set_retries R (set_errors E (recycled t)))) w)).
Proof.
  intros H1 H2. open_world w. subst. unfold torn_down, recycled. simpl.
  destruct cl; [|destruct h as [[]|]]; run_method_body;
    rewrite ?teardown_all, ?app_nil_r; destruct E; reflexivity.
Qed.

End RetryFacts.

(** C1 (amended): a source failure reaching a subscriber that is not
    stopped.  With no notifier subscription yet, a fresh Subject is made and
    the notifier function is called with it; if that call returns a stream,
    the stream is subscribed, the three fields are set, and the error is
    pushed into the new channel; if it throws, the thrown error goes
    downstream and nothing is pushed, whatever [errors.next] would do.  With
    a notifier subscription from an earlier cycle, no Subject is made, the
    notifier function is not called, nothing is released, and the error is
    pushed into the channel already there. *)
Theorem error_pushes_into_channel
        (notifier : nat -> completion nat) (push : nat -> err -> M world unit)
        (e : err) (w : world)
        (Hstopped : isStopped (this w) = false)
        (Hfields : consistent (this w) = true) :
  match retriesSubscription (this w) with
  | None =>
      let s := allocated w in
      match notifier s with
      | Normal r =>
          exists w1,
            error notifier push e w = push s e w1 /\
            errors (this w1) = Some s /\
            retries (this w1) = Some r /\
            retriesSubscription (this w1) = Some (S s) /\
            isStopped (this w1) = false /\
            trace w1 = trace w ++ [NewSubject s; CallNotifier s; SubscribeToResult r (S s)]
                               ++ torn_down (this w)
      | Throw x =>
          exists w1,
            (forall push', error notifier push' e w = (Normal tt, w1)) /\
            destination (this w1) = Guard.fail x (destination (this w)) /\
            trace w1 = trace w ++ [NewSubject s; CallNotifier s] ++ torn_down (this w)
      end
  | Some sub =>
      exists s r w1,
        errors (this w) = Some s /\ retries (this w) = Some r /\
        error notifier push e w = push s e w1 /\
        errors (this w1) = Some s /\
        retries (this w1) = Some r /\
        retriesSubscription (this w1) = Some sub /\
        isStopped (this w1) = false /\
        allocated w1 = allocated w /\
        trace w1 = trace w ++ torn_down (this w)
  end.
Proof.
  unfold consistent in Hfields. open_world w. subst st.
  destruct rs as [sub|], er as [s|], re as [r|]; try discriminate; clear Hfields.
  - exists s, r. unfold torn_down; simpl.
    destruct cl, h as [[]|]; eexists;
      (split; [reflexivity|]); (split; [reflexivity|]);
      (split; [run_method_body; rewrite ?teardown_all; reflexivity|]);
      simpl; rewrite ?app_nil_r; repeat split; reflexivity.
  - cbv zeta. unfold torn_down; simpl.
    destruct (notifier allocated0) as [r|x] eqn:Hn.
    + destruct cl, h as [[]|]; eexists;
        (split; [run_method_body; rewrite Hn; run_method_body;
                 rewrite ?teardown_all; reflexivity|]);
        simpl; rewrite <- ?app_assoc; simpl; repeat split; reflexivity.
    + destruct cl, (Guard.stopped d) eqn:Hd, h as [[]|]; eexists;
        (split; [intros push'; run_method_body; rewrite Hn; run_method_body;
                 rewrite ?Hd; run_method_body; rewrite ?teardown_all; reflexivity|]);
        simpl; unfold Guard.fail; rewrite ?Hd; simpl;
        rewrite <- ?app_assoc; simpl; rewrite ?app_nil_r; split; reflexivity.
Qed.

Lemma error_pushes_into_channel_witness :
  let notifier := fun s : nat => Normal s in
  let push := fun (_ : nat) (_ : err) => @ret world unit tt in
  let w := snd (error notifier push (UserError 1) initial) in
  (exists w1,
      error notifier push (UserError 1) initial = push 0 (UserError 1) w1 /\
      errors (this w1) = Some 0 /\
      retries (this w1) = Some 0 /\
      retriesSubscription (this w1) = Some 1 /\
      isStopped (this w1) = false /\
      trace w1 = [NewSubject 0; CallNotifier 0; SubscribeToResult 0 1]) /\
  (exists s r w1,
      errors (this w) = Some s /\ retries (this w) = Some r /\
      error notifier push (UserError 2) w = push s (UserError 2) w1 /\
      errors (this w1) = Some s /\
      retries (this w1) = Some r /\
      retriesSubscription (this w1) = Some 1 /\
      isStopped (this w1) = false /\
      allocated w1 = allocated w /\
      trace w1 = trace w ++ []).
Proof.
  cbv zeta. split.
  - exact (error_pushes_into_channel (fun s => Normal s) (fun _ _ => ret tt)
             (UserError 1) initial eq_refl eq_refl).
  - exact (error_pushes_into_channel (fun s => Normal s) (fun _ _ => ret tt)
             (UserError 2)
             (snd (error (fun s => Normal s) (fun _ _ => ret tt) (UserError 1) initial))
             eq_refl eq_refl).
Defined.

(** C1 as stated fails when the notifier function throws: the source has
    failed, the subscriber was not stopped, and no error was pushed into
    any channel; the thrown error went downstream instead. *)
Lemma error_without_push :
  let notifier := fun _ : nat => @Throw nat (UserError 7) in
  let push := Synchronous.Subject_next (Synchronous.retry_echo 1) (ret tt) in
  let r := error notifier push (UserError 0) initial in
  isStopped (this initial) = false /\
  fst r = Normal tt /\
  filter Synchronous.is_push (trace (snd r)) = [] /\
  trace (snd r) = [NewSubject 0; CallNotifier 0] /\
  Guard.received (destination (this (snd r))) = [ErrorN (UserError 7)].
Proof. cbv zeta. repeat split. Qed.

(** C2: a value from the notifier stream.  [notifyNext] ends in
    [this.source.subscribe(this)], called on the same subscriber after its
    recycling: the source subscriptions registered on it were torn down, it
    is neither closed nor stopped, and every other field (the destination,
    the notifier machinery, the [_unsubscribe] slot) is as before. *)
Theorem notifyNext_recycles_and_resubscribes
        (source_subscribe : M world unit) (w : world) :
  exists w1,
    notifyNext source_subscribe w = source_subscribe w1 /\
    this w1 = recycled (this w) /\
    closed (this w1) = false /\
    isStopped (this w1) = false /\
    (closed (this w) = false -> _subscriptions (this w1) = []) /\
    trace w1 = trace w ++ torn_down (this w) /\
    allocated w1 = allocated w /\
    attempts w1 = attempts w.
Proof.
  open_world w. unfold torn_down, recycled. simpl.
  destruct cl; eexists;
    (split; [run_method_body; rewrite ?teardown_all; reflexivity|]);
    simpl; rewrite ?app_nil_r; repeat split; try reflexivity; discriminate.
Qed.

(** C10: the notifier machinery outlives a resubscription.  In
    [notifyNext] the three fields and the [_unsubscribe] slot come out as
    they went in and no release call is made, although the same recycling
    with the slot left in place would release.  A genuine [unsubscribe]
    runs [_unsubscribe], which unsubscribes the Subject and the notifier
    subscription and nulls all three fields.  The other recycling of the
    class, in [error] on a later failure, releases nothing either. *)
Theorem notifier_machinery_survives_resubscription
        (source_subscribe : M world unit) (w : world) (s r sub : nat)
        (Herrors : errors (this w) = Some s)
        (Hretries : retries (this w) = Some r)
        (Hsub : retriesSubscription (this w) = Some sub)
        (Hslot : _unsubscribe (this w) = Some RetryWhenSubscriber_unsubscribe)
        (Hclosed : closed (this w) = false) :
  (exists w1,
      notifyNext source_subscribe w = source_subscribe w1 /\
      errors (this w1) = Some s /\
      retries (this w1) = Some r /\
      retriesSubscription (this w1) = Some sub /\
      _unsubscribe (this w1) = Some RetryWhenSubscriber_unsubscribe /\
      filter is_release (trace w1) = filter is_release (trace w)) /\
  (exists w2,
      _unsubscribeAndRecycle w = (Normal tt, w2) /\
      errors (this w2) = None /\ retries (this w2) = None /\
      retriesSubscription (this w2) = None) /\
  (exists w3,
      unsubscribe w = (Normal tt, w3) /\
      errors (this w3) = None /\
      retries (this w3) = None /\
      retriesSubscription (this w3) = None /\
      closed (this w3) = true /\
      trace w3 = trace w ++ [SubjectUnsubscribe s; SubscriptionUnsubscribe sub]
                         ++ map SourceTeardown (_subscriptions (this w))) /\
  (isStopped (this w) = false ->
   forall (notifier : nat -> completion nat) (push : nat -> err -> M world unit) (e : err),
   exists w4,
     error notifier push e w = push s e w4 /\
     errors (this w4) = Some s /\
     retries (this w4) = Some r /\
     retriesSubscription (this w4) = Some sub /\
     filter is_release (trace w4) = filter is_release (trace w)).
Proof.
  open_world w. subst.
  assert (Hmap : forall l, filter is_release (map SourceTeardown l) = []).
  { induction l; simpl; auto. }
  split; [|split; [|split]];
    [| | |intros Hst notifier push e; subst st];
    eexists;
    (split; [run_method_body; rewrite ?teardown_all; reflexivity|]);
    simpl; repeat split; try reflexivity.
  - rewrite filter_app, Hmap, app_nil_r. reflexivity.
  - rewrite <- !app_assoc. reflexivity.
  - rewrite filter_app, Hmap, app_nil_r. reflexivity.
Qed.

Lemma notifier_machinery_survives_resubscription_witness :
  let w := snd (error (fun s => Normal s) (fun _ _ => ret tt) (UserError 1) initial) in
  exists w1,
    notifyNext (ret tt) w = (Normal tt, w1) /\
    errors (this w1) = Some 0 /\
    retries (this w1) = Some 0 /\
    retriesSubscription (this w1) = Some 1 /\
    _unsubscribe (this w1) = Some RetryWhenSubscriber_unsubscribe /\
    filter is_release (trace w1) = [].
Proof.
  exact (proj1 (notifier_machinery_survives_resubscription (ret tt)
                  (snd (error (fun s => Normal s) (fun _ _ => ret tt) (UserError 1) initial))
                  0 0 1 eq_refl eq_refl eq_refl eq_refl eq_refl)).
Defined.

(** A stopped subscriber: the three entry points the source calls, and
    the error path of the class, return at once and change nothing. *)
Lemma retry_stopped_is_inert (w : world) :
  isStopped (this w) = true ->
  (forall v, next v w = (Normal tt, w)) /\
  complete w = (Normal tt, w) /\
  (forall notifier push e, error notifier push e w = (Normal tt, w)).
Proof.
  intros H. open_world w. subst.
  split; [|split]; intros; reflexivity.
Qed.

Lemma source_subscriptions_teardowns (tr : list event) (l : list nat) :
  source_subscriptions (tr ++ map SourceTeardown l) = source_subscriptions tr.
Proof.
  unfold source_subscriptions. rewrite filter_app.
  replace (filter _ (map SourceTeardown l)) with (@nil event);
    [apply app_nil_r|].
  induction l; simpl; auto.
Qed.

(** C4: the end of the notifier stream.  Its failure or its completion
    reaches the consumer as it is and nothing else does; the subscriber is
    then stopped and closed; the source was not subscribed; and every
    further call on the subscriber is a no-op. *)
Theorem notifier_terminal_is_forwarded
        (w : world)
        (Hdest : Guard.stopped (destination (this w)) = false)
        (Hclosed : closed (this w) = false) :
  (forall e, exists w1,
        notifyError e w = (Normal tt, w1) /\ ended_with (ErrorN e) w w1) /\
  (exists w1,
      notifyComplete w = (Normal tt, w1) /\ ended_with CompleteN w w1).
Proof.
  open_world w. subst.
  assert (Hinert : forall t a tr at' sk dp,
             isStopped t = true -> Guard.stopped (destination t) = true ->
             inert (mkWorld t a tr at' sk dp)).
  { intros t a tr at' sk dp H1 H2. destruct t; simpl in *; subst.
    unfold inert. repeat split; intros; run_method_body; rewrite ?H2; reflexivity. }
  split; [intros e|]; destruct h as [[]|], er, rs;
    eexists; (split; [run_method_body; rewrite Hdest; run_method_body;
                      rewrite teardown_all; reflexivity|]);
    unfold ended_with; simpl; unfold Guard.fail, Guard.complete; rewrite Hdest; simpl;
    rewrite ?source_subscriptions_teardowns;
    (repeat split; try reflexivity); try (apply Hinert; reflexivity);
    unfold source_subscriptions; rewrite !filter_app; simpl;
    rewrite ?app_nil_r; reflexivity.
Qed.

Lemma notifier_terminal_is_forwarded_witness :
  let w := snd (error (fun s => Normal s) (fun _ _ => ret tt) (UserError 1) initial) in
  (forall e, exists w1,
        notifyError e w = (Normal tt, w1) /\ ended_with (ErrorN e) w w1) /\
  (exists w1,
      notifyComplete w = (Normal tt, w1) /\ ended_with CompleteN w w1).
Proof.
  exact (notifier_terminal_is_forwarded
           (snd (error (fun s => Normal s) (fun _ _ => ret tt) (UserError 1) initial))
           eq_refl eq_refl).
Defined.

Ltac run_every_body :=
  cbv [Every.deliver Every.next Every.error Every.complete Every._next Every._error
       Every._complete Every.notifyComplete Every.destination_error
       Every.destination_complete Every.destination_terminal Every.destination_next
       Every.unsubscribe bind gets modify try_catch lift ret
       Every.set_index Every.set_isStopped Every.set_closed Every.set_destination
       Every.isStopped Every.closed Every.index Every.destination].

(** A call of the source on the predicate subscriber returns, whatever
    the predicate does. *)
Lemma every_deliver_returns (predicate : Z -> nat -> completion bool)
      (n : notification Z) (w : Every.EverySubscriber) :
  returns (Every.deliver predicate n) w.
Proof.
  unfold returns. destruct w as [st cl i [ds dr]].
  destruct n as [v|e|]; run_every_body.
  - destruct st; [do 2 eexists; reflexivity|].
    destruct (predicate v i) as [[]|x]; simpl;
      destruct ds, cl; simpl; do 2 eexists; reflexivity.
  - destruct st, ds, cl; simpl; do 2 eexists; reflexivity.
  - destruct st, ds, cl; simpl; do 2 eexists; reflexivity.
Qed.

(** C6: a throwing user callback.  When the predicate of [every] throws
    on a value, [next] returns normally and the consumer has received that
    error and nothing else (no value, no completion); when the notifier
    function of [retryWhen] throws, [error] returns normally, the consumer
    has received the thrown error and nothing else, and [errors.next] was not
    reached. *)
Theorem thrown_callback_becomes_failure :
  (forall (predicate : Z -> nat -> completion bool) (v : Z)
          (w : Every.EverySubscriber) (x : err),
      Every.isStopped w = false ->
      Guard.stopped (Every.destination w) = false ->
      predicate v (Every.index w) = Throw x ->
      exists w1,
        Every.next predicate v w = (Normal tt, w1) /\
        Every.destination w1 =
          Guard.mk true (Guard.received (Every.destination w) ++ [ErrorN x])) /\
  (forall (notifier : nat -> completion nat) (e x : err) (w : world),
      isStopped (this w) = false ->
      retries (this w) = None ->
      Guard.stopped (destination (this w)) = false ->
      notifier (allocated w) = Throw x ->
      exists w1,
        (forall push, error notifier push e w = (Normal tt, w1)) /\
        destination (this w1) =
          Guard.mk true (Guard.received (destination (this w)) ++ [ErrorN x]) /\
        isStopped (this w1) = true).
Proof.
  split.
  - intros predicate v w x Hs Hd Hp. destruct w as [st cl i [ds dr]]; simpl in *; subst.
    run_every_body. rewrite Hp. simpl. destruct cl; eexists; split; reflexivity.
  - intros notifier e x w Hs Hr Hd Hn. open_world w. subst.
    destruct cl, h as [[]|], er, rs; eexists;
      (split; [intros push; run_method_body; rewrite Hn; run_method_body;
               rewrite Hd; run_method_body; rewrite ?teardown_all; reflexivity|]);
      simpl; unfold Guard.fail; rewrite Hd; split; reflexivity.
Qed.

Lemma thrown_callback_becomes_failure_witness :
  (exists w1,
      Every.next (fun _ _ => Throw (UserError 3)) 1%Z (Every.create Guard.fresh)
      = (Normal tt, w1) /\
      Every.destination w1 = Guard.mk true ([] ++ [ErrorN (UserError 3)])) /\
  (exists w1,
      (forall push, error (fun _ => Throw (UserError 7)) push (UserError 0) initial
                    = (Normal tt, w1)) /\
      destination (this w1) = Guard.mk true ([] ++ [ErrorN (UserError 7)]) /\
      isStopped (this w1) = true).
Proof.
  split.
  - exact (proj1 thrown_callback_becomes_failure (fun _ _ => Throw (UserError 3)) 1%Z
                 (Every.create Guard.fresh) (UserError 3) eq_refl eq_refl eq_refl).
  - exact (proj2 thrown_callback_becomes_failure (fun _ => Throw (UserError 7))
                 (UserError 0) (UserError 7) initial eq_refl eq_refl eq_refl eq_refl).
Defined.

(** C7: a stopped guard.  The consumer guard ignores every call once
    stopped, and over any sequence of calls forwards at most one terminal
    notification; the two subscribers, once stopped, ignore the calls of the
    source, and in particular the error path of the retry subscriber returns
    at once, reaching neither the notifier function nor [errors.next]. *)
Theorem stopped_guard_discards
        (T : Type) (g : Guard.t T) (s : Every.EverySubscriber) (w : world)
        (Hg : Guard.stopped g = true)
        (Hs : Every.isStopped s = true)
        (Hw : isStopped (this w) = true) :
  (forall n, Guard.call n g = g) /\
  (forall ns, guard_after ns g = g) /\
  (forall ns : list (notification T), Guard.terminals (guard_after ns Guard.fresh) <= 1) /\
  (forall predicate n, Every.deliver predicate n s = (Normal tt, s)) /\
  (forall notifier push e, error notifier push e w = (Normal tt, w)) /\
  (forall v, next v w = (Normal tt, w)) /\
  complete w = (Normal tt, w).
Proof.
  destruct (retry_stopped_is_inert w Hw) as (H1 & H2 & H3).
  repeat split; auto.
  - intros n. now apply guard_stopped_call.
  - intros ns. now apply guard_stopped_after.
  - apply guard_at_most_one_terminal.
  - intros predicate n. now apply every_stopped_deliver.
Qed.

Lemma stopped_guard_discards_witness :
  let g := Guard.complete (@Guard.fresh Z) in
  let w := snd (complete initial) in
  (forall n, Guard.call n g = g) /\
  (forall notifier push e, error notifier push e w = (Normal tt, w)).
Proof.
  cbv zeta.
  pose proof (stopped_guard_discards Z (Guard.complete Guard.fresh)
                (snd (Every.run (below 5) [CompleteN])) (snd (complete initial))
                eq_refl eq_refl eq_refl) as H.
  split; [exact (proj1 H) | exact (proj1 (proj2 (proj2 (proj2 (proj2 H)))))].
Defined.

(** ** retryWhen in a synchronous world *)

Section SynchronousFacts.
Import Synchronous.

Ltac run_loop_body :=
  cbv [deliver Subject_next inner_deliver add_teardown call for_each run_teardowns
       notifier notifier_stream source retry_echo set_stack set_deepest set_attempts
       error error_tail notifyNext notifyError notifyComplete next complete
       Subscriber_error destination_error destination_complete destination_terminal
       destination_next _unsubscribeAndRecycle unsubscribe run_method
       RetryWhen_unsubscribe new_Subject subscribeToResult allocate emit assign read
       bind gets modify ret try_catch lift throw
       on_this set_trace set_allocated
       set_isStopped set_closed set_subscriptions set_unsubscribe set_errors
       set_retries set_retriesSubscription set_destination
       this allocated trace attempts stack deepest
       isStopped closed _subscriptions _unsubscribe errors retries
       retriesSubscription destination].

Lemma listening_app (sub : nat) (tr tr' : list event) :
  listening sub (tr ++ tr') = listening sub tr && listening sub tr'.
Proof. unfold listening. rewrite existsb_app. now destruct (existsb _ tr). Qed.

Lemma listening_push (sub s : nat) (e : err) (tr : list event) :
  listening sub tr = true -> listening sub (tr ++ [SubjectNext s e]) = true.
Proof. intros H. rewrite listening_app, H. reflexivity. Qed.

(** One failure of the source between two attempts, with the echoing
    notifier: the error goes into the channel, comes back as a notifier
    value, and [resubscribe] runs three frames deeper, on the same armed
    subscriber. *)
Lemma error_cycle (n : nat) (resubscribe : M world unit) (e : err)
      (s r sub : nat) (d : Guard.t Z) (a : nat) (tr : list event)
      (k sk dp : nat) (w' : world) :
  listening sub tr = true ->
  resubscribe (mkWorld (armed s r sub d) a (tr ++ [SubjectNext s e]) k
                       (S (S (S sk)))
                       (Nat.max (Nat.max (Nat.max dp (S sk)) (S (S sk))) (S (S (S sk)))))
  = (Normal tt, w') ->
  deliver (retry_echo n) resubscribe (ErrorN e)
          (mkWorld (armed s r sub d) a tr k sk dp) =
  (Normal tt, set_stack sk w').
Proof.
  intros Hl Hr. unfold armed in *. run_loop_body.
  rewrite (listening_push sub s e tr Hl).
  run_loop_body. rewrite Hr. reflexivity.
Qed.

(** The first failure: the machinery is built, then the same path. *)
Lemma first_error_cycle (n : nat) (resubscribe : M world unit) (e : err)
      (d : Guard.t Z) (a : nat) (tr : list event) (k sk dp : nat) (w' : world) :
  resubscribe (mkWorld (armed a a (S a) d) (S (S a))
                       (tr ++ [NewSubject a; CallNotifier a;
                               SubscribeToResult a (S a); SubjectNext a e])
                       k (S (S (S sk)))
                       (Nat.max (Nat.max (Nat.max dp (S sk)) (S (S sk))) (S (S (S sk)))))
  = (Normal tt, w') ->
  listening (S a) tr = true ->
  deliver (retry_echo n) resubscribe (ErrorN e)
          (mkWorld (create d) a tr k sk dp) =
  (Normal tt, set_stack sk w').
Proof.
  intros Hr Hl. unfold armed, create in *. run_loop_body.
  rewrite <- !app_assoc. cbn [app].
  assert (Hl' : listening (S a) (tr ++ [NewSubject a; CallNotifier a;
                                 SubscribeToResult a (S a); SubjectNext a e]) = true).
  { rewrite listening_app, Hl. reflexivity. }
  rewrite Hl'. run_loop_body. rewrite Hr. reflexivity.
Qed.

Lemma source_subscribe_step (env : environment) (fuel : nat)
      (t : RetryWhenSubscriber) (a : nat) (tr : list event) (k sk dp : nat) :
  source_subscribe env (S fuel) (mkWorld t a tr k sk dp) =
  let (r, w') :=
    (for_each (deliver env (source_subscribe env fuel)) (source env k) ;;
     add_teardown k)%method
      (mkWorld t a (tr ++ [SourceSubscribe k]) (S k) (S sk) (Nat.max dp (S sk))) in
  (r, set_stack sk w').
Proof. reflexivity. Qed.

Lemma failing_source_lt (n k : nat) :
  k < n -> failing_source n k = [ErrorN (UserError (Z.of_nat k))].
Proof. intros H. unfold failing_source. apply Nat.ltb_lt in H. now rewrite H. Qed.

Lemma failing_source_ge (n k : nat) :
  n <= k -> failing_source n k = [CompleteN].
Proof. intros H. unfold failing_source. apply Nat.ltb_ge in H. now rewrite H. Qed.

(** From an armed subscriber with [m] failures still to come, the run
    returns, the consumer is completed, and the stack has gone four frames
    deeper for each failure. *)
Lemma echo_run (n m : nat) :
  forall (s r sub : nat) (d : Guard.t Z) (a : nat) (tr : list event) (k sk dp : nat),
    listening sub tr = true ->
    Guard.stopped d = false ->
    k + m = n ->
    exists w',
      source_subscribe (retry_echo n) (S m) (mkWorld (armed s r sub d) a tr k sk dp)
      = (Normal tt, w') /\
      closed (this w') = true /\
      stack w' = sk /\
      attempts w' = S n /\
      deepest w' = Nat.max dp (sk + 4 * m + 2) /\
      destination (this w') = Guard.complete d.
Proof.
  induction m as [|m IH]; intros s r sub d a tr k sk dp Hl Hd Hk.
  - rewrite source_subscribe_step.
    change (source (retry_echo n) k) with (failing_source n k).
    rewrite failing_source_ge by lia. unfold armed.
    run_loop_body. rewrite Hd. run_loop_body.
    eexists. split; [reflexivity|]. simpl.
    unfold Guard.complete. rewrite Hd.
    repeat split; try reflexivity; lia.
  - rewrite source_subscribe_step.
    change (source (retry_echo n) k) with (failing_source n k).
    rewrite failing_source_lt by lia.
    destruct (IH s r sub d a
                 ((tr ++ [SourceSubscribe k]) ++ [SubjectNext s (UserError (Z.of_nat k))])
                 (S k) (S (S (S (S sk))))
                 (Nat.max (Nat.max (Nat.max (Nat.max dp (S sk)) (S (S sk)))
                                   (S (S (S sk)))) (S (S (S (S sk))))))
      as (w' & Hrun & Hc & Hs & Ha & Hdp & Hdest).
    { rewrite !listening_app, Hl. reflexivity. }
    { exact Hd. }
    { lia. }
    unfold for_each, bind at 1 2.
    rewrite (error_cycle n _ _ s r sub d a (tr ++ [SourceSubscribe k]) (S k) (S sk)
               (Nat.max dp (S sk)) w')
      by (rewrite ?listening_app, ?Hl; auto).
    destruct w' as [[st' cl' subs' h' er' re' rs' d'] a' tr' k' sk' dp']; simpl in *.
    subst. run_loop_body.
    eexists. split; [reflexivity|]. simpl.
    repeat split; try reflexivity; lia.
Qed.

(** The whole run, on a stack without limit: [n] synchronous failures,
    then completion. *)
Lemma retry_echo_run (n : nat) :
  exists w',
    run (retry_echo n) (S n) = (Normal tt, w') /\
    stack w' = 0 /\
    attempts w' = S n /\
    deepest w' = 4 * n + 2 /\
    Guard.received (destination (this w')) = [CompleteN].
Proof.
  destruct n as [|n].
  - eexists. split; [vm_compute; reflexivity|]. vm_compute. repeat split.
  - unfold run, initial. rewrite source_subscribe_step.
    change (source (retry_echo (S n)) 0) with (failing_source (S n) 0).
    rewrite failing_source_lt by lia.
    destruct (echo_run (S n) n 0 0 1 Guard.fresh 2
                (([] ++ [SourceSubscribe 0]) ++
                 [NewSubject 0; CallNotifier 0; SubscribeToResult 0 1;
                  SubjectNext 0 (UserError (Z.of_nat 0))])
                1 4 (Nat.max (Nat.max (Nat.max (Nat.max 0 1) 2) 3) 4))
      as (w' & Hrun & Hc & Hs & Ha & Hdp & Hdest);
      [reflexivity | reflexivity | lia |].
    unfold for_each, bind at 1 2.
    rewrite (first_error_cycle (S n) _ _ Guard.fresh 0 ([] ++ [SourceSubscribe 0])
               1 1 (Nat.max 0 1) w' Hrun eq_refl).
    destruct w' as [[st' cl' subs' h' er' re' rs' d'] a' tr' k' sk' dp']; simpl in *.
    subst. run_loop_body.
    eexists. split; [reflexivity|]. simpl.
    repeat split; try reflexivity; lia.
Qed.

Lemma resubscription_depth_law (n : nat) : resubscription_depth n = 4 * n + 2.
Proof.
  unfold resubscription_depth.
  destruct (retry_echo_run n) as (w' & Hrun & _ & _ & Hd & _).
  rewrite Hrun. exact Hd.
Qed.

(** The same cycle, whichever way the resubscription ends: it runs three
    frames below the delivery of the failure, and its result is the result
    of that delivery. *)
Lemma error_cycle_nests (n : nat) (resubscribe : M world unit) (e : err)
      (s r sub : nat) (d : Guard.t Z) (a : nat) (tr : list event) (k sk dp : nat) :
  listening sub tr = true ->
  deliver (retry_echo n) resubscribe (ErrorN e)
          (mkWorld (armed s r sub d) a tr k sk dp) =
  let (res, w') :=
    resubscribe (mkWorld (armed s r sub d) a (tr ++ [SubjectNext s e]) k
                         (S (S (S sk)))
                         (Nat.max (Nat.max (Nat.max dp (S sk)) (S (S sk))) (S (S (S sk)))))
  in (res, set_stack sk w').
Proof.
  intros Hl. unfold armed. run_loop_body.
  rewrite (listening_push sub s e tr Hl).
  run_loop_body.
  destruct (resubscribe _) as [[[]|x] w']; reflexivity.
Qed.

(** *** The three private fields stay consistent *)

Lemma keeps_bind {A B} (m : M world A) (k : A -> M world B) :
  keeps_consistent m -> (forall a, keeps_consistent (k a)) ->
  keeps_consistent (bind m k).
Proof.
  intros Hm Hk w r w' Hw H. unfold bind in H.
  destruct (m w) as [[a|e] w1] eqn:E.
  - eapply Hk; [eapply Hm; eauto | exact H].
  - inversion H; subst. eapply Hm; eauto.
Qed.

Lemma keeps_for_each {A} (f : A -> M world unit) (xs : list A) :
  (forall x, keeps_consistent (f x)) -> keeps_consistent (for_each f xs).
Proof.
  intros Hf. induction xs as [|x xs IH]; simpl.
  - intros w r w' Hw H. inversion H; subst. exact Hw.
  - apply keeps_bind; auto.
Qed.

Lemma keeps_call {A} (m : M world A) :
  keeps_consistent m -> keeps_consistent (call m).
Proof.
  intros Hm w r w' Hw H. unfold call in H.
  destruct (m _) as [r1 w1] eqn:E. inversion H; subst.
  destruct w1; simpl. eapply (Hm _ _ _ _ E). Unshelve. destruct w; exact Hw.
Qed.

Ltac settle_consistent :=
  match goal with
  | H : (_, _) = (_, _) |- _ => inversion H; subst; clear H; simpl; try reflexivity
  end.

Lemma keeps_inherited :
  (forall v, keeps_consistent (next v)) /\
  keeps_consistent complete /\
  (forall e, keeps_consistent (notifyError e)) /\
  keeps_consistent notifyComplete /\
  (forall k, keeps_consistent (add_teardown k)).
Proof.
  unfold keeps_consistent, consistent.
  repeat split; intros; open_world w;
    destruct st, cl, h as [[]|], er, re, rs, (Guard.stopped d) eqn:Hd; try discriminate;
    revert H0; cbv [add_teardown];
    do 3 (run_method_body; rewrite ?Hd, ?teardown_all);
    intros H0; settle_consistent.
Qed.

Lemma keeps_error (notifier : nat -> completion nat)
      (push : nat -> err -> M world unit) (e : err) :
  (forall s x, keeps_consistent (push s x)) ->
  keeps_consistent (error notifier push e).
Proof.
  intros Hpush w r w' Hw H. unfold consistent in Hw. open_world w.
  destruct st; [revert H; run_method_body; intros H; settle_consistent; exact Hw|].
  destruct er, re, rs; try discriminate; clear Hw.
  - destruct cl, h as [[]|]; revert H; run_method_body; rewrite ?teardown_all;
      intros H; (eapply Hpush; [|exact H]); reflexivity.
  - destruct (notifier allocated0) as [x|x] eqn:Hn.
    + destruct cl, h as [[]|]; revert H; run_method_body; rewrite Hn; run_method_body;
        rewrite ?teardown_all; intros H; (eapply Hpush; [|exact H]); reflexivity.
    + destruct cl, h as [[]|], (Guard.stopped d) eqn:Hd; revert H;
        do 4 (run_method_body; rewrite ?Hn, ?Hd, ?teardown_all);
        intros H; settle_consistent.
Qed.

Lemma keeps_notifyNext (source_subscribe : M world unit) :
  keeps_consistent source_subscribe -> keeps_consistent (notifyNext source_subscribe).
Proof.
  intros Hs w r w' Hw H. open_world w.
  destruct cl; revert H; run_method_body; rewrite ?teardown_all; intros H;
    (eapply Hs; [|exact H]); exact Hw.
Qed.

(** Whatever the source and the notifier do, as long as they push
    synchronously, each call of the loop keeps the fields consistent: every
    call of [error] finds them consistent. *)
Lemma keeps_source_subscribe (env : environment) (fuel : nat) :
  keeps_consistent (source_subscribe env fuel).
Proof.
  destruct keeps_inherited as (Hnext & Hcomplete & HnotifyError & HnotifyComplete & Hadd).
  assert (Hgets : forall A (f : world -> A), keeps_consistent (gets f)).
  { intros A f w r w' Hw H. inversion H; subst. exact Hw. }
  assert (Hemit : forall ev, keeps_consistent (emit ev)).
  { intros ev w r w' Hw H. inversion H; subst. destruct w; exact Hw. }
  assert (Hret : keeps_consistent (@ret world unit tt)).
  { intros w r w' Hw H. inversion H; subst. exact Hw. }
  induction fuel as [|fuel IH]; simpl.
  - intros w r w' Hw H. inversion H; subst. exact Hw.
  - apply keeps_call. apply keeps_bind; [apply Hgets|]. intros k.
    apply keeps_bind.
    { intros w r w' Hw H. inversion H; subst. destruct w; exact Hw. }
    intros _. apply keeps_bind; [apply Hemit|]. intros _.
    apply keeps_bind; [|intros _; apply Hadd].
    apply keeps_for_each. intros [v|e|]; simpl; apply keeps_call; auto.
    apply keeps_error. intros s x. unfold Subject_next.
    apply keeps_call. apply keeps_bind; [apply Hgets|]. intros p.
    apply keeps_bind; [apply Hemit|]. intros _.
    apply keeps_bind; [apply Hgets|]. intros [sub|]; [|exact Hret].
    apply keeps_for_each. intros n. unfold inner_deliver.
    apply keeps_bind; [apply Hgets|]. intros [|]; [|exact Hret].
    destruct n as [v|e'|].
    + apply keeps_call. now apply keeps_notifyNext.
    + apply keeps_bind; [apply Hemit|]. intros _. apply keeps_call. apply HnotifyError.
    + apply keeps_bind; [apply Hemit|]. intros _. apply keeps_call. apply HnotifyComplete.
Qed.

(** On a stack without limit, a run leaves the three fields set together
    or not at all. *)
Lemma run_keeps_consistent (env : environment) (fuel : nat) :
  consistent (this (snd (run env fuel))) = true.
Proof.
  unfold run. destruct (source_subscribe env fuel initial) as [r w'] eqn:E.
  exact (keeps_source_subscribe env fuel initial r w' eq_refl E).
Qed.

(** The retry cycle of the spec's test list: one failure, one notifier
    value, one resubscription; the consumer sees the values twice and the
    completion, and no source subscription is left. *)
Lemma retry_cycle_accounting :
  let w := snd (run fails_once 2) in
  fst (run fails_once 2) = Normal tt /\
  Guard.received (destination (this w)) = values [1; 2; 3; 1; 2; 3]%Z ++ [CompleteN] /\
  attempts w = 2 /\
  live_subscriptions (trace w) = [] /\
  errors (this w) = None /\ retriesSubscription (this w) = None.
Proof. vm_compute. repeat split. Qed.

(** A notifier stream that ends stops the retrying: one subscription to
    the source, and the end of the notifier goes downstream. *)
Lemma notifier_end_stops_retrying :
  let done := snd (run (notifier_ends CompleteN) 1) in
  let failed := snd (run (notifier_ends (ErrorN (UserError 9))) 1) in
  fst (run (notifier_ends CompleteN) 1) = Normal tt /\
  Guard.received (destination (this done)) = [CompleteN] /\
  attempts done = 1 /\
  Guard.received (destination (this failed)) = [ErrorN (UserError 9)] /\
  attempts failed = 1.
Proof. vm_compute. repeat split. Qed.

End SynchronousFacts.

(** C3 (amended): [notifyNext] resubscribes by calling
    [this.source.subscribe(this)] directly, inside the call that delivered
    the notifier value; there is no queue.  With the notifier
    [errors => errors], a failure of the source makes that call three frames
    below its own delivery, whichever way the resubscription ends; so with
    a source that fails synchronously [n] times the path nests four frames
    deeper per cycle, and the depth it reaches, counted on a stack without
    limit, is [4 * n + 2]. *)
Theorem resubscription_depth_grows (n : nat) :
  (forall (source_subscribe : M world unit) (w : world),
      exists w1, notifyNext source_subscribe w = source_subscribe w1) /\
  (forall (resubscribe : M world unit) (e : err) (s r sub : nat) (d : Guard.t Z)
          (a : nat) (tr : list event) (k sk dp : nat),
      Synchronous.listening sub tr = true ->
      exists w1,
        stack w1 = 3 + sk /\
        this w1 = armed s r sub d /\
        Synchronous.deliver (Synchronous.retry_echo n) resubscribe (ErrorN e)
                            (mkWorld (armed s r sub d) a tr k sk dp) =
        let (res, w') := resubscribe w1 in (res, set_stack sk w')) /\
  Synchronous.resubscription_depth n = 4 * n + 2 /\
  Synchronous.resubscription_depth (S n) = Synchronous.resubscription_depth n + 4.
Proof.
  split; [|split; [|split]].
  - intros h w. open_world w.
    destruct cl; eexists; run_method_body; rewrite ?teardown_all; reflexivity.
  - intros resubscribe e s r sub d a tr k sk dp Hl.
    eexists. split; [|split; [|exact (error_cycle_nests n resubscribe e s r sub d a tr
                                                       k sk dp Hl)]]; reflexivity.
  - apply resubscription_depth_law.
  - rewrite !resubscription_depth_law. lia.
Qed.

(** C3 as stated fails: no constant bounds the depth of the
    resubscription path over all numbers of consecutive synchronous cycles. *)
Lemma resubscription_depth_unbounded :
  ~ (exists bound : nat, forall n : nat, Synchronous.resubscription_depth n <= bound).
Proof.
  intros [bound H]. specialize (H bound).
  rewrite resubscription_depth_law in H. lia.
Qed.

(** * Further properties of the code *)

(** ** every *)

Lemma every_first_failure_witness :
  Every.run (below 5) (values [1; 2; 3; 4]%Z ++ NextN 5%Z :: [NextN 6%Z; CompleteN]) =
  (Normal tt, Every.mk true true 5 (Guard.mk true [NextN false; CompleteN])).
Proof.
  apply (every_first_failure (below 5) [1; 2; 3; 4]%Z 5%Z [NextN 6%Z; CompleteN]).
  - intros i x H. do 4 (destruct i as [|i]; [inversion H; reflexivity|]).
    destruct i; discriminate.
  - reflexivity.
Defined.

Lemma every_all_pass_witness :
  Every.output (below 10) (values [1; 2; 3]%Z) = [] /\
  Every.run (below 10) (values [1; 2; 3]%Z ++ [CompleteN]) =
  (Normal tt, Every.mk true true 3 (Guard.mk true [NextN true; CompleteN])).
Proof.
  apply (every_all_pass (below 10) [1; 2; 3]%Z).
  intros i x H. do 3 (destruct i as [|i]; [inversion H; reflexivity|]).
  destruct i; discriminate.
Defined.

(** When the predicate throws on a value that follows only passing values,
    the consumer receives that error and nothing else, neither a verdict
    nor a completion, whatever the source pushes afterwards; the values
    after it are not tested. *)
Theorem every_predicate_throw_ends_run
        (predicate : Z -> nat -> completion bool)
        (vs : list Z) (v : Z) (x : err) (rest : list (notification Z)) :
  (forall i y, nth_error vs i = Some y -> predicate y i = Normal true) ->
  predicate v (List.length vs) = Throw x ->
  Every.run predicate (values vs ++ NextN v :: rest) =
  (Normal tt, Every.mk true true (S (List.length vs)) (Guard.mk true [ErrorN x])).
Proof.
  intros Hp Hv. unfold Every.run. rewrite for_each_app.
  rewrite every_passing_prefix by (simpl; auto).
  simpl. unfold bind at 1.
  unfold Every.next, Every._next, bind, gets, modify, try_catch, lift; simpl.
  rewrite Hv. simpl. now rewrite every_stopped_absorbs.
Qed.

Lemma every_predicate_throw_ends_run_witness :
  Every.run (fun v i => if Nat.eqb i 2 then Throw (UserError v) else Normal true)
            (values [1; 2]%Z ++ NextN 3%Z :: [NextN 4%Z; CompleteN]) =
  (Normal tt, Every.mk true true 3 (Guard.mk true [ErrorN (UserError 3)])).
Proof.
  apply (every_predicate_throw_ends_run
           (fun v i => if Nat.eqb i 2 then Throw (UserError v) else Normal true)
           [1; 2]%Z 3%Z (UserError 3) [NextN 4%Z; CompleteN]).
  - intros i y H. do 2 (destruct i as [|i]; [reflexivity|]).
    destruct i; discriminate.
  - reflexivity.
Defined.

Lemma every_state_ok_deliver (predicate : Z -> nat -> completion bool)
      (n : notification Z) (w : Every.EverySubscriber) :
  every_state_ok w ->
  every_state_ok (snd (Every.deliver predicate n w)) /\
  fst (Every.deliver predicate n w) = Normal tt.
Proof.
  unfold every_state_ok, every_outcome.
  destruct w as [st cl i [ds dr]]; simpl.
  intros [(H1 & H2 & H3) | (H1 & H2 & H3 & H4 & H5)]; subst.
  - inversion H3; subst.
    destruct n as [v|e|]; run_every_body; simpl.
    + destruct (predicate v i) as [[|]|x]; simpl; split; auto;
        right; repeat split; eauto; discriminate.
    + split; auto. right; repeat split; eauto; discriminate.
    + split; auto. right; repeat split; eauto; discriminate.
  - destruct n as [v|e|]; run_every_body; simpl;
      (split; [right; repeat split; auto | reflexivity]).
Qed.

Lemma every_state_ok_run (predicate : Z -> nat -> completion bool)
      (ns : list (notification Z)) (w : Every.EverySubscriber) :
  every_state_ok w ->
  every_state_ok (snd (for_each (Every.deliver predicate) ns w)) /\
  fst (for_each (Every.deliver predicate) ns w) = Normal tt.
Proof.
  revert w. induction ns as [|n ns IH]; intros w Hw; simpl; [auto|].
  unfold bind. destruct (every_state_ok_deliver predicate n w Hw) as [H1 H2].
  destruct (Every.deliver predicate n w) as [r w1]; simpl in *. subst r.
  apply IH. exact H1.
Qed.

(** Whatever the source pushes, in whatever order, and whatever the
    predicate answers or throws, the consumer of [every] has received
    nothing, or one boolean followed by the completion, or one error: never
    two verdicts, never a verdict without completion, never anything after
    the end. *)
Theorem every_output_shape (predicate : Z -> nat -> completion bool)
        (ns : list (notification Z)) :
  every_outcome (Every.output predicate ns).
Proof.
  unfold Every.output, Every.run.
  destruct (every_state_ok_run predicate ns (Every.create Guard.fresh)) as [H _].
  { left. repeat split. }
  destruct H as [(_ & _ & H) | (_ & _ & _ & _ & H)]; [|exact H].
  rewrite H. left. reflexivity.
Qed.

(** No call made by the source on the predicate subscriber throws: an
    exception of the predicate never leaves the run. *)
Theorem every_run_returns (predicate : Z -> nat -> completion bool)
        (ns : list (notification Z)) :
  fst (Every.run predicate ns) = Normal tt.
Proof.
  unfold Every.run.
  apply every_state_ok_run. left. repeat split.
Qed.

(** ** retryWhen *)

(** [_unsubscribe] from any state: it returns, the three private fields
    are null afterwards, the Subject and the notifier subscription are each
    unsubscribed exactly when they were there, nothing else of the
    subscriber changes, and a second run finds nothing to release. *)
Theorem unsubscribe_hook_releases_once (w : world) :
  exists w1,
    RetryWhen_unsubscribe w = (Normal tt, w1) /\
    errors (this w1) = None /\
    retries (this w1) = None /\
    retriesSubscription (this w1) = None /\
    trace w1 = trace w
               ++ match errors (this w) with
                  | Some s => [SubjectUnsubscribe s]
                  | None => []
                  end
               ++ match retriesSubscription (this w) with
                  | Some sub => [SubscriptionUnsubscribe sub]
                  | None => []
                  end /\
    isStopped (this w1) = isStopped (this w) /\
    closed (this w1) = closed (this w) /\
    _subscriptions (this w1) = _subscriptions (this w) /\
    destination (this w1) = destination (this w) /\
    RetryWhen_unsubscribe w1 = (Normal tt, w1).
Proof.
  open_world w.
  destruct er, rs; eexists; (split; [run_method_body; reflexivity|]);
    simpl; rewrite <- ?app_assoc, ?app_nil_r; repeat split; reflexivity.
Qed.

(** [error] entered on a subscriber that is not stopped, with [retries]
    set and [errors] null (the state lines 113-114 leave behind if an
    exception cuts a call short before lines 119-121 write the fields
    back): the recycling runs, the fields
    are written back as they were read, and [errors!.next(err)] throws the
    [TypeError] of a call on [null].  The notifier function and the channel
    are not reached, nothing goes downstream, and the subscriber is left
    not stopped in the same state: the next failure throws again. *)
Theorem error_without_channel_throws
        (notifier : nat -> completion nat) (push : nat -> err -> M world unit)
        (e : err) (w : world) (r : nat)
        (Hstopped : isStopped (this w) = false)
        (Hretries : retries (this w) = Some r)
        (Herrors : errors (this w) = None) :
  exists w1,
    error notifier push e w = (Throw TypeError, w1) /\
    isStopped (this w1) = false /\
    retries (this w1) = Some r /\
    errors (this w1) = None /\
    retriesSubscription (this w1) = retriesSubscription (this w) /\
    destination (this w1) = destination (this w) /\
    trace w1 = trace w ++ torn_down (this w) /\
    allocated w1 = allocated w /\
    (forall e', exists w2, error notifier push e' w1 = (Throw TypeError, w2)).
Proof.
  open_world w. subst. unfold torn_down. simpl.
  destruct cl, h as [[]|]; eexists;
    (split; [run_method_body; rewrite ?teardown_all; reflexivity|]);
    simpl; rewrite ?app_nil_r;
    (repeat (split; [reflexivity|]));
    intros e'; eexists; run_method_body; rewrite ?teardown_all; reflexivity.
Qed.

Lemma error_without_channel_throws_witness :
  let w := on_this (set_retries (Some 0)) initial in
  exists w1,
    error (fun s => Normal s) (fun _ _ => ret tt) (UserError 1) w = (Throw TypeError, w1) /\
    isStopped (this w1) = false /\
    retries (this w1) = Some 0 /\
    errors (this w1) = None /\
    retriesSubscription (this w1) = retriesSubscription (this w) /\
    destination (this w1) = destination (this w) /\
    trace w1 = trace w ++ torn_down (this w) /\
    allocated w1 = allocated w /\
    (forall e', exists w2,
          error (fun s => Normal s) (fun _ _ => ret tt) e' w1 = (Throw TypeError, w2)).
Proof.
  exact (error_without_channel_throws (fun s => Normal s) (fun _ _ => ret tt)
           (UserError 1) (on_this (set_retries (Some 0)) initial) 0
           eq_refl eq_refl eq_refl).
Defined.

(** *** A stack with a limit *)

Section BoundedFacts.
Variable limit : nat.
Variable overflow : err.

Lemma fits_bind {A B} (m mb : M world A) (k kb : A -> M world B) :
  fits limit m mb -> (forall a, fits limit (k a) (kb a)) ->
  fits limit (bind m k) (bind mb kb).
Proof.
  intros Hm Hk w r w' H. unfold bind in *.
  destruct (m w) as [[a|e] w1] eqn:E.
  - destruct (Hm _ _ _ E) as [M1 S1]. destruct (Hk a _ _ _ H) as [M2 S2].
    split; [lia|]. intros Hl. rewrite S1 by lia. apply S2. exact Hl.
  - inversion H; subst. destruct (Hm _ _ _ E) as [M1 S1].
    split; [exact M1|]. intros Hl. now rewrite S1.
Qed.

Lemma fits_for_each {A} (f fb : A -> M world unit) (xs : list A) :
  (forall x, fits limit (f x) (fb x)) -> fits limit (for_each f xs) (for_each fb xs).
Proof.
  intros Hf. induction xs as [|x xs IH]; simpl.
  - intros w r w' H. inversion H; subst. split; [lia | reflexivity].
  - apply fits_bind; auto.
Qed.

Lemma fits_call {A} (m mb : M world A) :
  fits limit m mb -> fits limit (Synchronous.call m) (Bounded.call limit overflow mb).
Proof.
  intros Hm w r w' H. unfold Bounded.call, Synchronous.call in *.
  destruct (m _) as [r1 w1] eqn:E. inversion H; subst.
  destruct (Hm _ _ _ E) as [M1 S1].
  assert (Hd : Nat.max (deepest w) (S (stack w)) <= deepest w1).
  { destruct w; exact M1. }
  split; [destruct w1; simpl in *; lia|].
  intros Hl.
  assert (Hl1 : deepest w1 <= limit) by (destruct w1; exact Hl).
  replace (Nat.ltb limit (S (stack w))) with false
    by (symmetry; apply Nat.ltb_ge; lia).
  now rewrite S1.
Qed.

(** A call that does not touch the stack. *)
Lemma fits_same {A} (m : M world A) :
  (forall w r w', m w = (r, w') -> deepest w' = deepest w) -> fits limit m m.
Proof.
  intros Hm w r w' H. rewrite (Hm _ _ _ H). split; [lia | intros _; exact H].
Qed.

Lemma depth_untouched :
  (forall v w r w', next v w = (r, w') -> deepest w' = deepest w) /\
  (forall w r w', complete w = (r, w') -> deepest w' = deepest w) /\
  (forall e w r w', notifyError e w = (r, w') -> deepest w' = deepest w) /\
  (forall w r w', notifyComplete w = (r, w') -> deepest w' = deepest w) /\
  (forall k w r w', Synchronous.add_teardown k w = (r, w') -> deepest w' = deepest w) /\
  (forall ev w r w', emit ev w = (r, w') -> deepest w' = deepest w).
Proof.
  split; [|split; [|split; [|split; [|split]]]]; intros.
  6: { inversion H; subst. destruct w; reflexivity. }
  all: open_world w;
    destruct st, cl, h as [[]|], er, rs, (Guard.stopped d) eqn:Hd;
    revert H; cbv [Synchronous.add_teardown];
    do 3 (run_method_body; rewrite ?Hd, ?teardown_all);
    intros H; inversion H; subst; reflexivity.
Qed.

Lemma fits_error (notifier : nat -> completion nat)
      (push pushb : nat -> err -> M world unit) (e : err) :
  (forall s x, fits limit (push s x) (pushb s x)) ->
  fits limit (error notifier push e) (error notifier pushb e).
Proof.
  intros Hpush w r w' H. open_world w.
  destruct st.
  { revert H; run_method_body; intros H. inversion H; subst.
    split; [simpl; lia | reflexivity]. }
  destruct re as [r0|].
  - destruct er as [s|].
    + destruct cl, h as [[]|]; revert H; run_method_body; rewrite ?teardown_all;
        intros H; exact (Hpush _ _ _ _ _ H).
    + destruct cl, h as [[]|]; revert H; run_method_body; rewrite ?teardown_all;
        intros H; inversion H; subst; (split; [simpl; lia | reflexivity]).
  - destruct (notifier allocated0) as [x|x] eqn:Hn.
    + destruct cl, h as [[]|], er, rs; revert H; run_method_body; rewrite Hn;
        run_method_body; rewrite ?teardown_all; intros H; exact (Hpush _ _ _ _ _ H).
    + destruct cl, h as [[]|], er, rs, (Guard.stopped d) eqn:Hd; revert H;
        do 4 (run_method_body; rewrite ?Hn, ?Hd, ?teardown_all);
        intros H; inversion H; subst; (split; [simpl; lia | reflexivity]).
Qed.

Lemma fits_notifyNext (h hb : M world unit) :
  fits limit h hb -> fits limit (notifyNext h) (notifyNext hb).
Proof.
  intros Hh w r w' H. open_world w.
  destruct cl; revert H; run_method_body; rewrite ?teardown_all; intros H;
    exact (Hh _ _ _ H).
Qed.

Lemma fits_source_subscribe (env : Synchronous.environment) (fuel : nat) :
  fits limit (Synchronous.source_subscribe env fuel)
       (Bounded.source_subscribe limit overflow env fuel).
Proof.
  destruct depth_untouched as (Dnext & Dcomplete & DnotifyError & DnotifyComplete
                               & Dadd & Demit).
  assert (Hgets : forall A (f : world -> A), fits limit (gets f) (gets f)).
  { intros A f. apply fits_same. intros w r w' H. inversion H; subst. reflexivity. }
  assert (Hret : fits limit (@ret world unit tt) (ret tt)).
  { apply fits_same. intros w r w' H. inversion H; subst. reflexivity. }
  induction fuel as [|fuel IH]; simpl.
  - apply fits_same. intros w r w' H. inversion H; subst. reflexivity.
  - apply fits_call. apply fits_bind; [apply Hgets|]. intros k.
    apply fits_bind.
    { apply fits_same. intros w r w' H. inversion H; subst. destruct w; reflexivity. }
    intros _. apply fits_bind; [apply fits_same, Demit|]. intros _.
    apply fits_bind; [|intros _; apply fits_same, Dadd].
    apply fits_for_each. intros [v|e|]; simpl; apply fits_call.
    + apply fits_same, Dnext.
    + apply fits_error. intros s x.
      unfold Synchronous.Subject_next, Bounded.Subject_next.
      apply fits_call. apply fits_bind; [apply Hgets|]. intros p.
      apply fits_bind; [apply fits_same, Demit|]. intros _.
      apply fits_bind; [apply Hgets|]. intros [sub|]; [|exact Hret].
      apply fits_for_each. intros n.
      unfold Synchronous.inner_deliver, Bounded.inner_deliver.
      apply fits_bind; [apply Hgets|]. intros [|]; [|exact Hret].
      destruct n as [v|e'|].
      * apply fits_call. now apply fits_notifyNext.
      * apply fits_bind; [apply fits_same, Demit|]. intros _.
        apply fits_call. apply fits_same, DnotifyError.
      * apply fits_bind; [apply fits_same, Demit|]. intros _.
        apply fits_call. apply fits_same, DnotifyComplete.
    + apply fits_same, Dcomplete.
Qed.

(** A run whose depth, counted on a stack without limit, fits the stack
    is the same run on the stack with the limit. *)
Lemma bounded_run_agrees (env : Synchronous.environment) (fuel : nat) :
  deepest (snd (Synchronous.run env fuel)) <= limit ->
  Bounded.run limit overflow env fuel = Synchronous.run env fuel.
Proof.
  unfold Bounded.run, Synchronous.run.
  destruct (Synchronous.source_subscribe env fuel initial) as [r w'] eqn:E.
  intros Hl. exact (proj2 (fits_source_subscribe env fuel initial r w' E) Hl).
Qed.

End BoundedFacts.

(** *** The values of every attempt reach the consumer *)

Section MirrorFacts.
Import Synchronous.

Ltac run_loop_body' :=
  cbv [deliver Subject_next inner_deliver add_teardown call for_each run_teardowns
       notifier notifier_stream source set_stack set_deepest set_attempts
       error error_tail notifyNext notifyError notifyComplete next complete
       Subscriber_error destination_error destination_complete destination_terminal
       destination_next _unsubscribeAndRecycle unsubscribe run_method
       RetryWhen_unsubscribe new_Subject subscribeToResult allocate emit assign read
       bind gets modify ret try_catch lift throw
       on_this set_trace set_allocated
       set_isStopped set_closed set_subscriptions set_unsubscribe set_errors
       set_retries set_retriesSubscription set_destination
       this allocated trace attempts stack deepest
       isStopped closed _subscriptions _unsubscribe errors retries
       retriesSubscription destination].

Lemma guard_after_values (vs : list Z) (d : Guard.t Z) :
  Guard.stopped d = false ->
  guard_after (values vs) d = Guard.mk false (Guard.received d ++ values vs).
Proof.
  revert d. induction vs as [|v vs IH]; intros [ds dr] Hd; simpl in *; subst.
  - now rewrite app_nil_r.
  - unfold Guard.value at 1; simpl. fold (values vs). fold (guard_after (values vs)).
    rewrite IH by reflexivity. simpl. now rewrite <- app_assoc.
Qed.

(** Values pushed into a subscriber that is not stopped go to the
    destination and change nothing else but the depth reached. *)
Lemma values_pass (env : environment) (resubscribe : M world unit) (vs : list Z) :
  forall (t : RetryWhenSubscriber) (a : nat) (tr : list event) (k sk dp : nat),
    isStopped t = false ->
    exists dp',
      for_each (deliver env resubscribe) (values vs) (mkWorld t a tr k sk dp) =
      (Normal tt,
       mkWorld (set_destination (guard_after (values vs) (destination t)) t) a tr k sk dp').
Proof.
  induction vs as [|v vs IH]; intros t a tr k sk dp Ht.
  - exists dp. destruct t; reflexivity.
  - destruct (IH (set_destination (Guard.value v (destination t)) t) a tr k sk
                 (Nat.max dp (S sk))) as (dp' & H).
    { destruct t; exact Ht. }
    exists dp'. simpl for_each. unfold bind at 1.
    destruct t as [st cl subs h er re rs d]; simpl in Ht; subst st.
    unfold deliver at 1. run_loop_body'. simpl in H.
    revert H. run_loop_body'. intros H. exact H.
Qed.

Lemma values_pass_depth (env : environment) (resubscribe : M world unit) (vs : list Z) :
  forall (t : RetryWhenSubscriber) (a : nat) (tr : list event) (k sk dp : nat),
    isStopped t = false ->
    exists dp',
      for_each (deliver env resubscribe) (values vs) (mkWorld t a tr k sk dp) =
      (Normal tt,
       mkWorld (set_destination (guard_after (values vs) (destination t)) t) a tr k sk dp')
      /\ dp' <= Nat.max dp (S sk).
Proof.
  induction vs as [|v vs IH]; intros t a tr k sk dp Ht.
  - exists dp. split; [destruct t; reflexivity | lia].
  - destruct (IH (set_destination (Guard.value v (destination t)) t) a tr k sk
                 (Nat.max dp (S sk))) as (dp' & H & Hb).
    { destruct t; exact Ht. }
    exists dp'. split; [|lia]. simpl for_each. unfold bind at 1.
    destruct t as [st cl subs h er re rs d]; simpl in Ht; subst st.
    unfold deliver at 1. run_loop_body'. simpl in H.
    revert H. run_loop_body'. intros H. exact H.
Qed.

Lemma values_app {T} (xs ys : list T) : values (xs ++ ys) = values xs ++ values ys.
Proof. apply map_app. Qed.

(** [error_cycle] and [first_error_cycle] for any environment whose
    notifier is [errors => errors]. *)
Lemma echo_cycle (env : environment) (resubscribe : M world unit) (e : err)
      (s r sub : nat) (d : Guard.t Z) (a : nat) (tr : list event)
      (k sk dp : nat) (w' : world) :
  notifier_stream env = (fun _ _ => [NextN 0%Z]) ->
  listening sub tr = true ->
  resubscribe (mkWorld (armed s r sub d) a (tr ++ [SubjectNext s e]) k
                       (S (S (S sk)))
                       (Nat.max (Nat.max (Nat.max dp (S sk)) (S (S sk))) (S (S (S sk)))))
  = (Normal tt, w') ->
  deliver env resubscribe (ErrorN e) (mkWorld (armed s r sub d) a tr k sk dp) =
  (Normal tt, set_stack sk w').
Proof.
  intros Hn Hl Hr. destruct env as [src nf ns]; simpl in Hn; subst ns.
  unfold armed in *. run_loop_body'.
  rewrite (listening_push sub s e tr Hl).
  run_loop_body'. rewrite Hr. reflexivity.
Qed.

Lemma echo_first_cycle (env : environment) (resubscribe : M world unit) (e : err)
      (d : Guard.t Z) (a : nat) (tr : list event) (k sk dp : nat) (w' : world) :
  notifier env = (fun s => Normal s) ->
  notifier_stream env = (fun _ _ => [NextN 0%Z]) ->
  listening (S a) tr = true ->
  resubscribe (mkWorld (armed a a (S a) d) (S (S a))
                       (tr ++ [NewSubject a; CallNotifier a;
                               SubscribeToResult a (S a); SubjectNext a e])
                       k (S (S (S sk)))
                       (Nat.max (Nat.max (Nat.max dp (S sk)) (S (S sk))) (S (S (S sk)))))
  = (Normal tt, w') ->
  deliver env resubscribe (ErrorN e) (mkWorld (create d) a tr k sk dp) =
  (Normal tt, set_stack sk w').
Proof.
  intros Hf Hn Hl Hr. destruct env as [src nf ns]; simpl in Hf, Hn; subst nf ns.
  unfold armed, create in *. run_loop_body'.
  rewrite <- !app_assoc. cbn [app].
  assert (Hl' : listening (S a) (tr ++ [NewSubject a; CallNotifier a;
                                 SubscribeToResult a (S a); SubjectNext a e]) = true).
  { rewrite listening_app, Hl. reflexivity. }
  rewrite Hl'. run_loop_body'. rewrite Hr. reflexivity.
Qed.

(** From an armed subscriber at the k-th subscription, with [m] failures
    to come: the run returns, the consumer has received the values of the
    attempts [k .. k+m] in order and the completion, the calls made are
    exactly [echo_trace], and the machinery is released. *)
Lemma mirror_run (vs : nat -> list Z) (n m : nat) :
  forall (s r sub : nat) (d : Guard.t Z) (a : nat) (tr : list event) (k sk dp : nat),
    listening sub tr = true ->
    Guard.stopped d = false ->
    k + m = n ->
    exists dp',
      source_subscribe (retry_mirror vs n) (S m) (mkWorld (armed s r sub d) a tr k sk dp)
      = (Normal tt,
         mkWorld (mkThis true true [] (Some RetryWhenSubscriber_unsubscribe)
                         None None None
                         (Guard.mk true
                            (Guard.received d
                             ++ values (List.concat (map vs (seq k (S m))))
                             ++ [CompleteN])))
                 a (tr ++ echo_trace s sub k m) (S n) sk dp')
      /\ dp' <= Nat.max dp (sk + 4 * m + 2).
Proof.
  induction m as [|m IH]; intros s r sub d a tr k sk dp Hl Hd Hk.
  - rewrite source_subscribe_step.
    change (source (retry_mirror vs n) k) with (attempt_script vs n k).
    unfold attempt_script. replace (Nat.ltb k n) with false
      by (symmetry; apply Nat.ltb_ge; lia).
    unfold bind at 1. rewrite for_each_app.
    destruct (values_pass_depth (retry_mirror vs n)
                (source_subscribe (retry_mirror vs n) 0)
                (vs k) (armed s r sub d) a (tr ++ [SourceSubscribe k]) (S k) (S sk)
                (Nat.max dp (S sk)) eq_refl) as (dp1 & Hv & Hb1).
    rewrite Hv. simpl destination. rewrite guard_after_values by exact Hd.
    unfold armed. run_loop_body'. unfold Guard.complete. simpl.
    eexists. split.
    + rewrite app_nil_r. rewrite <- !app_assoc. simpl.
      replace (S k) with (S n) by lia. reflexivity.
    + lia.
  - rewrite source_subscribe_step.
    change (source (retry_mirror vs n) k) with (attempt_script vs n k).
    unfold attempt_script. replace (Nat.ltb k n) with true
      by (symmetry; apply Nat.ltb_lt; lia).
    unfold bind at 1. rewrite for_each_app.
    destruct (values_pass_depth (retry_mirror vs n)
                (source_subscribe (retry_mirror vs n) (S m))
                (vs k) (armed s r sub d) a (tr ++ [SourceSubscribe k]) (S k) (S sk)
                (Nat.max dp (S sk)) eq_refl) as (dp1 & Hv & Hb1).
    rewrite Hv. simpl destination. rewrite guard_after_values by exact Hd.
    change (set_destination ?g (armed s r sub d)) with (armed s r sub g).
    destruct (IH s r sub (Guard.mk false (Guard.received d ++ values (vs k))) a
                 ((tr ++ [SourceSubscribe k]) ++ [SubjectNext s (UserError (Z.of_nat k))])
                 (S k) (S (S (S (S sk))))
                 (Nat.max (Nat.max (Nat.max dp1 (S (S sk))) (S (S (S sk))))
                          (S (S (S (S sk))))))
      as (dp2 & Hrun & Hb2).
    { rewrite !listening_app, Hl. reflexivity. }
    { reflexivity. }
    { lia. }
    unfold for_each, bind at 1.
    rewrite (echo_cycle (retry_mirror vs n) _ _ s r sub _ a (tr ++ [SourceSubscribe k])
               (S k) (S sk) dp1 _ eq_refl)
      by (rewrite ?listening_app, ?Hl; auto; exact Hrun).
    run_loop_body'. simpl.
    eexists. split.
    + rewrite <- !app_assoc. simpl.
      rewrite !values_app, <- !app_assoc. reflexivity.
    + lia.
Qed.

Lemma in_echo_trace_teardown (s sub m : nat) :
  forall k j, In (SourceSubscribe j) (echo_trace s sub k m) ->
              In (SourceTeardown j) (echo_trace s sub k m).
Proof.
  induction m as [|m IH]; intros k j H; simpl in *.
  - destruct H as [H|[H|[H|[H|[]]]]]; try discriminate.
    inversion H; subst. auto.
  - destruct H as [H|[H|H]]; try discriminate.
    + inversion H; subst. right; right. apply in_or_app. right. simpl. auto.
    + apply in_app_or in H. destruct H as [H|[H|[]]]; try discriminate.
      right; right. apply in_or_app. left. now apply IH.
Qed.

Lemma notifier_calls_echo_trace (s sub m : nat) :
  forall k, notifier_calls (echo_trace s sub k m) = 0.
Proof.
  unfold notifier_calls. induction m as [|m IH]; intros k; simpl; [reflexivity|].
  rewrite filter_app, length_app, IH. reflexivity.
Qed.

(** A trace in which every source subscription has its teardown leaves
    no live subscription. *)
Lemma live_subscriptions_none (tr : list event) :
  (forall k, In (SourceSubscribe k) tr -> In (SourceTeardown k) tr) ->
  live_subscriptions tr = [].
Proof.
  intros H. unfold live_subscriptions.
  match goal with |- filter ?f ?l = [] =>
    assert (Hall : forall x, In x l -> f x = false)
  end.
  { intros k Hk. apply in_flat_map in Hk. destruct Hk as (ev & Hev & Hin).
    destruct ev; simpl in Hin; try contradiction.
    destruct Hin as [->|[]].
    apply negb_false_iff. apply existsb_exists.
    exists (SourceTeardown k). split; [now apply H | apply Nat.eqb_refl]. }
  revert Hall. generalize (flat_map (fun e : event =>
                             match e with SourceSubscribe k => [k] | _ => [] end) tr).
  intros l. induction l as [|x l IH]; intros Hall; simpl; [reflexivity|].
  rewrite (Hall x) by (left; reflexivity). apply IH. intros y Hy. apply Hall. now right.
Qed.

End MirrorFacts.

(** The run of [retry_mirror] counted on a stack without limit: what the
    consumer receives, the calls made, and the depth reached. *)
Lemma retry_mirror_run (vs : nat -> list Z) (n : nat) :
  exists w',
    Synchronous.run (retry_mirror vs n) (S n) = (Normal tt, w') /\
    Guard.received (destination (this w')) =
      values (List.concat (map vs (seq 0 (S n)))) ++ [CompleteN] /\
    attempts w' = S n /\
    Synchronous.live_subscriptions (trace w') = [] /\
    notifier_calls (trace w') = Nat.min n 1 /\
    errors (this w') = None /\
    retries (this w') = None /\
    retriesSubscription (this w') = None /\
    deepest w' <= 4 * n + 2.
Proof.
  unfold Synchronous.run, initial. rewrite source_subscribe_step.
  change (Synchronous.source (retry_mirror vs n) 0) with (attempt_script vs n 0).
  unfold attempt_script, bind at 1. rewrite for_each_app.
  destruct (values_pass_depth (retry_mirror vs n)
              (Synchronous.source_subscribe (retry_mirror vs n) n)
              (vs 0) (create Guard.fresh) 0 ([] ++ [SourceSubscribe 0]) 1 1
              (Nat.max 0 1) eq_refl) as (dp1 & Hv & Hb1).
  rewrite Hv. simpl destination. rewrite guard_after_values by reflexivity.
  change (set_destination ?g (create Guard.fresh)) with (create g).
  cbn [Guard.received Guard.fresh app].
  destruct n as [|n].
  - change (0 <? 0) with false. cbv iota.
    cbv [Synchronous.deliver Synchronous.add_teardown Synchronous.call for_each create].
    run_method_body. unfold Guard.complete. simpl.
    eexists. split; [reflexivity|]. simpl.
    rewrite app_nil_r. repeat split; try reflexivity. simpl in Hb1. lia.
  - change (0 <? S n) with true. cbv iota.
    destruct (mirror_run vs (S n) n 0 0 1 (Guard.mk false (values (vs 0))) 2
                ([SourceSubscribe 0] ++
                 [NewSubject 0; CallNotifier 0; SubscribeToResult 0 1;
                  SubjectNext 0 (UserError (Z.of_nat 0))])
                1 4 (Nat.max (Nat.max (Nat.max dp1 2) 3) 4))
      as (dp2 & Hrun & Hb2); [reflexivity | reflexivity | lia |].
    unfold for_each, bind at 1.
    rewrite (echo_first_cycle (retry_mirror vs (S n)) _ _ _ 0 [SourceSubscribe 0]
               1 1 dp1 _ eq_refl eq_refl eq_refl Hrun).
    cbv [Synchronous.add_teardown set_stack]. run_method_body.
    eexists. split; [reflexivity|]. simpl.
    split; [rewrite !values_app, <- !app_assoc; reflexivity|].
    split; [reflexivity|].
    split.
    { apply live_subscriptions_none. intros k Hk.
      destruct Hk as [Hk|[Hk|[Hk|[Hk|[Hk|Hk]]]]]; try discriminate.
      - inversion Hk; subst. do 5 right. apply in_or_app. right. left. reflexivity.
      - apply in_app_or in Hk. destruct Hk as [Hk|[Hk|[]]]; [|discriminate].
        do 5 right. apply in_or_app. left. now apply in_echo_trace_teardown. }
    split.
    { rewrite Nat.min_0_r. unfold notifier_calls. simpl.
      rewrite !filter_app, !length_app.
      fold (notifier_calls (echo_trace 0 1 1 n)).
      rewrite notifier_calls_echo_trace. reflexivity. }
    repeat (split; [reflexivity|]). simpl in Hb1. lia.
Qed.

(** The operator mirrors the source but for its errors: a source that
    emits [vs k] on its k-th subscription, fails on the first [n] and
    completes on the next, under [retryWhen(errors => errors)], on a call
    stack that holds the [4 * n + 2] nested frames of the [n] cycles.  The
    run returns; the consumer has received the values of all [n + 1]
    attempts in order, then the completion, and no error; the source was
    subscribed [n + 1] times and every one of these subscriptions was torn
    down; the notifier function was called once if there was a failure,
    never otherwise; and the notifier machinery is released at the end. *)
Theorem retry_mirrors_within_stack
        (limit : nat) (overflow : err) (vs : nat -> list Z) (n : nat)
        (Hroom : 4 * n + 2 <= limit) :
  exists w',
    Bounded.run limit overflow (retry_mirror vs n) (S n) = (Normal tt, w') /\
    Guard.received (destination (this w')) =
      values (List.concat (map vs (seq 0 (S n)))) ++ [CompleteN] /\
    attempts w' = S n /\
    Synchronous.live_subscriptions (trace w') = [] /\
    notifier_calls (trace w') = Nat.min n 1 /\
    errors (this w') = None /\
    retries (this w') = None /\
    retriesSubscription (this w') = None.
Proof.
  destruct (retry_mirror_run vs n)
    as (w' & Hrun & H1 & H2 & H3 & H4 & H5 & H6 & H7 & Hdeep).
  exists w'. rewrite bounded_run_agrees by (rewrite Hrun; simpl; lia).
  repeat (split; [assumption|]). assumption.
Qed.

Lemma retry_mirrors_within_stack_witness :
  exists w',
    Bounded.run 10 (UserError 0) (retry_mirror (fun k => [Z.of_nat k; 7%Z]) 2) 3
    = (Normal tt, w') /\
    Guard.received (destination (this w')) =
      values (List.concat (map (fun k => [Z.of_nat k; 7%Z]) (seq 0 3))) ++ [CompleteN] /\
    attempts w' = 3 /\
    Synchronous.live_subscriptions (trace w') = [] /\
    notifier_calls (trace w') = Nat.min 2 1 /\
    errors (this w') = None /\
    retries (this w') = None /\
    retriesSubscription (this w') = None.
Proof.
  apply (retry_mirrors_within_stack 10 (UserError 0) (fun k => [Z.of_nat k; 7%Z]) 2).
  simpl. lia.
Defined.



(** When the notifier function throws [x] on the first failure of the
    source, the consumer receives the values of the first attempt and then
    [x] as an error, not the error of the source; the source is subscribed
    once, nothing is pushed into the channel, and no Subject or subscription
    is left to release. *)
Theorem notifier_throw_ends_run
        (vs : list Z) (e x : err) (reaction : list (notification Z)) :
  exists w',
    Synchronous.run (failing_with vs e (fun _ => Throw x) reaction) 1 = (Normal tt, w') /\
    Guard.received (destination (this w')) = values vs ++ [ErrorN x] /\
    attempts w' = 1 /\
    Synchronous.live_subscriptions (trace w') = [] /\
    filter Synchronous.is_push (trace w') = [] /\
    errors (this w') = None /\
    retriesSubscription (this w') = None.
Proof.
  unfold Synchronous.run, initial. rewrite source_subscribe_step.
  change (Synchronous.source (failing_with vs e (fun _ => Throw x) reaction) 0)
    with (values vs ++ [ErrorN e]).
  unfold bind at 1. rewrite for_each_app.
  destruct (values_pass (failing_with vs e (fun _ => Throw x) reaction)
              (Synchronous.source_subscribe
                 (failing_with vs e (fun _ => Throw x) reaction) 0)
              vs (create Guard.fresh) 0 ([] ++ [SourceSubscribe 0]) 1 1
              (Nat.max 0 1) eq_refl) as (dp1 & Hv).
  rewrite Hv. simpl destination. rewrite guard_after_values by reflexivity.
  eexists; split; [vm_compute; reflexivity|].
  vm_compute; repeat split; reflexivity.
Qed.

(** *** The notifier function is called at most once *)

Section OnceFacts.
Import Synchronous.

Lemma notifier_calls_app (a b : list event) :
  notifier_calls (a ++ b) = notifier_calls a + notifier_calls b.
Proof. unfold notifier_calls. now rewrite filter_app, length_app. Qed.

Lemma created_app (a b : list event) : created (a ++ b) = created a ++ created b.
Proof. unfold created. apply flat_map_app. Qed.

Lemma teardowns_are_quiet (l : list nat) (i : nat) :
  notifier_calls (map SourceTeardown l) = 0 /\
  created (map SourceTeardown l) = [] /\
  listening i (map SourceTeardown l) = true.
Proof.
  unfold notifier_calls, created, listening.
  induction l as [|k l (IH1 & IH2 & IH3)]; simpl; auto.
Qed.

Lemma extends_refl (w : world) : extends w w.
Proof. exists []. now rewrite app_nil_r. Qed.

Lemma extends_trans (w1 w2 w3 : world) : extends w1 w2 -> extends w2 w3 -> extends w1 w3.
Proof.
  intros [a Ha] [b Hb]. exists (a ++ b). now rewrite Hb, Ha, app_assoc.
Qed.

Lemma created_extends (i : nat) (w w' : world) :
  extends w w' -> In i (created (trace w)) -> In i (created (trace w')).
Proof.
  intros [a Ha] H. rewrite Ha, created_app. apply in_or_app. now left.
Qed.

Lemma machinery_bind {A B} (P : world -> Prop) (m : M world A) (k : A -> M world B) :
  (forall w w', P w -> extends w w' -> P w') ->
  keeps_machinery P m -> (forall a, keeps_machinery P (k a)) ->
  keeps_machinery P (bind m k).
Proof.
  intros Hmono Hm Hk w r w' Hw HP H. unfold bind in H.
  destruct (m w) as [[a|e] w1] eqn:E.
  - destruct (Hm _ _ _ Hw HP E) as [H1 H2].
    destruct (Hk a _ _ _ H1 (Hmono _ _ HP H2) H) as [H3 H4].
    split; [exact H3 | eapply extends_trans; eauto].
  - inversion H; subst. exact (Hm _ _ _ Hw HP E).
Qed.

Lemma machinery_for_each {A} (P : world -> Prop) (f : A -> M world unit) (xs : list A) :
  (forall w w', P w -> extends w w' -> P w') ->
  (forall x, keeps_machinery P (f x)) -> keeps_machinery P (for_each f xs).
Proof.
  intros Hmono Hf. induction xs as [|x xs IH]; simpl.
  - intros w r w' Hw _ H. inversion H; subst. split; [exact Hw | apply extends_refl].
  - apply machinery_bind; auto.
Qed.

Lemma machinery_call {A} (P : world -> Prop) (m : M world A) :
  (forall w d s, P w -> P (set_deepest d (set_stack s w))) ->
  keeps_machinery P m -> keeps_machinery P (call m).
Proof.
  intros HP' Hm w r w' Hw HP H. unfold call in H.
  destruct (m _) as [r1 w1] eqn:E. inversion H; subst.
  assert (Hw1 : machinery_ok (set_deepest (Nat.max (deepest w) (S (stack w)))
                                          (set_stack (S (stack w)) w))).
  { destruct w; exact Hw. }
  destruct (Hm _ _ _ Hw1 (HP' _ _ _ HP) E) as [Hc He].
  split; [destruct w1; exact Hc | destruct w, w1; exact He].
Qed.

Lemma machinery_weaken {A} (P : world -> Prop) (m : M world A) :
  keeps_machinery always m -> keeps_machinery P m.
Proof. intros H w r w' Hw _ E. exact (H w r w' Hw I E). Qed.

Lemma notifier_calls_teardowns (l : list nat) : notifier_calls (map SourceTeardown l) = 0.
Proof. apply (teardowns_are_quiet l 0). Qed.

Lemma created_teardowns (l : list nat) : created (map SourceTeardown l) = [].
Proof. apply (teardowns_are_quiet l 0). Qed.

Lemma listening_teardowns (i : nat) (l : list nat) :
  listening i (map SourceTeardown l) = true.
Proof. apply (teardowns_are_quiet l i). Qed.

Arguments notifier_calls !tr /.
Arguments created !tr /.
Arguments listening sub !tr /.

Ltac split_ok H :=
  let Hc := fresh "Hc" in let He := fresh "He" in let Hr := fresh "Hr" in
  let Hs := fresh "Hs" in let Hcr := fresh "Hcr" in let Hst := fresh "Hst" in
  let Hdead := fresh "Hdead" in let Hlen := fresh "Hlen" in
  let s0 := fresh "s0" in let r0 := fresh "r0" in let i0 := fresh "i0" in
  unfold machinery_ok in H; simpl in H;
  destruct H as [(Hc & He & Hr & Hs & Hcr)
                | [(Hc & s0 & r0 & i0 & He & Hr & Hs & Hcr)
                  | (Hc & He & Hr & Hs & Hst & Hlen & Hdead)]];
  subst.

Ltac trace_simpl :=
  repeat rewrite ?notifier_calls_app, ?created_app, ?notifier_calls_teardowns,
                 ?created_teardowns; simpl.

Ltac dead_goal Hdead :=
  let j := fresh "j" in let Hj := fresh "Hj" in
  intros j Hj; trace_simpl; rewrite ?app_nil_r in Hj;
  repeat rewrite ?listening_app, ?listening_teardowns; simpl;
  first [ rewrite (Hdead j Hj); reflexivity
        | destruct Hj as [Hj|[]]; subst;
          rewrite ?Nat.eqb_refl; simpl; rewrite ?andb_false_r, ?andb_false_l; reflexivity ].

Ltac ok_goal :=
  unfold machinery_ok; simpl; trace_simpl; rewrite ?app_nil_r;
  first [ left; solve [repeat split; (assumption || reflexivity || lia)]
        | right; left; solve [split; [lia | do 3 eexists; repeat split;
                                            (reflexivity || (rewrite ?app_nil_r; eassumption)
                                             || (match goal with H : created _ = _ |- _ => rewrite H end; reflexivity))]]
        | right; right;
          solve [repeat (split; [first [ assumption | reflexivity | lia
                                       | match goal with
                                         | H : created _ = _ |- _ =>
                                             rewrite H; simpl; lia
                                         end ]|]);
                 match goal with
                 | Hdead : forall i, In i _ -> _ |- _ => dead_goal Hdead
                 | Hcr : created _ = _ |- _ =>
                     rewrite Hcr;
                     let j := fresh "j" in let Hj := fresh "Hj" in
                     intros j Hj; rewrite ?app_nil_r in Hj;
                     repeat rewrite ?listening_app, ?listening_teardowns; simpl;
                     first [ contradiction
                           | destruct Hj as [Hj|[]]; subst;
                             rewrite ?Nat.eqb_refl; simpl;
                             rewrite ?andb_false_r, ?andb_false_l; reflexivity ]
                 end] ].

Ltac extends_goal :=
  unfold extends; simpl;
  first [ exists []; rewrite app_nil_r; reflexivity
        | eexists; rewrite <- ?app_assoc; reflexivity ].

Ltac settle_machinery :=
  match goal with
  | H : (_, _) = (_, _) |- _ =>
      inversion H; subst; clear H; split; [ok_goal | extends_goal]
  end.

Lemma machinery_inherited :
  (forall v, keeps_machinery always (next v)) /\
  keeps_machinery always complete /\
  (forall e, keeps_machinery always (notifyError e)) /\
  keeps_machinery always notifyComplete /\
  (forall k, keeps_machinery always (add_teardown k)) /\
  (forall ev, match ev with
              | CallNotifier _ | SubscribeToResult _ _
              | SubscriptionUnsubscribe _ | SubjectUnsubscribe _ => False
              | _ => True
              end -> keeps_machinery always (emit ev)).
Proof.
  unfold keeps_machinery.
  split; [|split; [|split; [|split; [|split]]]]; intros.
  6: { destruct w as [t a tr k sk dp]. inversion H2; subst. clear H2.
       split_ok H0; destruct ev; try contradiction; (split; [ok_goal | extends_goal]). }
  all: open_world w;
    destruct st, cl, h as [[]|], (Guard.stopped d) eqn:Hd; split_ok H; try discriminate;
    revert H1; cbv [add_teardown];
    do 3 (run_method_body; rewrite ?Hd, ?teardown_all);
    intros H1; settle_machinery.
Qed.

Ltac through H Hnext :=
  match type of H with
  | ?m ?w1 = (?r, ?w') =>
      let A := fresh "A" in let B := fresh "B" in
      assert (A : machinery_ok w1) by ok_goal;
      destruct (Hnext _ _ _ A I H) as [A' B];
      split; [exact A' | eapply extends_trans; [|exact B]; extends_goal]
  end.

Lemma machinery_error (notifier : nat -> completion nat)
      (push : nat -> err -> M world unit) (e : err) :
  (forall s x, keeps_machinery always (push s x)) ->
  keeps_machinery always (error notifier push e).
Proof.
  intros Hpush w r w' Hw _ H. open_world w.
  destruct st.
  { revert H; run_method_body; intros H. inversion H; subst.
    split; [exact Hw | apply extends_refl]. }
  split_ok Hw; try discriminate.
  - destruct (notifier allocated0) as [x|x] eqn:Hn.
    + destruct cl, h as [[]|]; revert H; run_method_body; rewrite Hn; run_method_body;
        rewrite ?teardown_all; intros H; through H (Hpush allocated0 e).
    + destruct cl, h as [[]|], (Guard.stopped d) eqn:Hd; revert H;
        do 4 (run_method_body; rewrite ?Hn, ?Hd, ?teardown_all);
        intros H; settle_machinery.
  - destruct cl, h as [[]|]; revert H; run_method_body; rewrite ?teardown_all;
      intros H; through H (Hpush s0 e).
Qed.

(** A notifier value can only come through a subscription that still
    listens, and then the machinery is there: the recycling keeps it. *)
Lemma machinery_notifyNext (source_subscribe : M world unit) (i : nat) :
  keeps_machinery always source_subscribe ->
  keeps_machinery (still_listening i) (notifyNext source_subscribe).
Proof.
  intros Hs w r w' Hw [Hi Hl] H. unfold was_created in Hi. open_world w.
  split_ok Hw.
  - rewrite Hcr in Hi. contradiction.
  - destruct cl; revert H; run_method_body; rewrite ?teardown_all; intros H;
      through H Hs.
  - rewrite (Hdead i Hi) in Hl. discriminate.
Qed.

Lemma machinery_inner_deliver (resubscribe : M world unit) (i : nat)
      (n : notification Z) :
  keeps_machinery always resubscribe ->
  keeps_machinery (was_created i) (inner_deliver resubscribe i n).
Proof.
  intros Hs w r w' Hw Hi H.
  destruct machinery_inherited as (_ & _ & HnotifyError & HnotifyComplete & _ & Hemit).
  unfold inner_deliver, bind at 1, gets in H.
  destruct (listening i (trace w)) eqn:Hl.
  - destruct n as [v|e|].
    + refine (machinery_call (still_listening i) _ _ (machinery_notifyNext _ i Hs)
                             w r w' Hw (conj Hi Hl) H).
      intros w0 d s [A B]. split; destruct w0; assumption.
    + refine (machinery_bind always _ _ _ (Hemit (InnerTerminal i) I) _ w r w' Hw I H).
      * intros; exact I.
      * intros _. apply machinery_call; [intros; exact I | apply HnotifyError].
    + refine (machinery_bind always _ _ _ (Hemit (InnerTerminal i) I) _ w r w' Hw I H).
      * intros; exact I.
      * intros _. apply machinery_call; [intros; exact I | apply HnotifyComplete].
  - inversion H; subst. split; [exact Hw | apply extends_refl].
Qed.

Lemma machinery_Subject_next (env : environment) (resubscribe : M world unit)
      (s : nat) (e : err) :
  keeps_machinery always resubscribe ->
  keeps_machinery always (Subject_next env resubscribe s e).
Proof.
  intros Hs. unfold Subject_next.
  apply machinery_call; [intros; exact I|].
  intros w r w' Hw _ H.
  unfold bind at 1, gets, bind at 1, emit at 1, modify, bind at 1, read, gets in H.
  remember (set_trace (trace w ++ [SubjectNext s e]) w) as w1 eqn:Ew1.
  assert (Hw1 : machinery_ok w1 /\ extends w w1).
  { subst w1. destruct w as [t a tr k sk dp]. split; [|extends_goal].
    split_ok Hw; ok_goal. }
  destruct Hw1 as [Hw1 He1].
  destruct (retriesSubscription (this w1)) as [i|] eqn:Hrs.
  - assert (Hi : was_created i w1).
    { unfold was_created. clear H. destruct w1 as [t a tr k sk dp].
      split_ok Hw1; simpl in Hrs; try congruence.
      rewrite Hs0 in Hrs. inversion Hrs; subst. simpl. rewrite Hcr. left. reflexivity. }
    destruct (machinery_for_each (was_created i) (inner_deliver resubscribe i)
                (notifier_stream env (pushes (trace w)) e)
                (fun a b Ha Hb => created_extends i a b Hb Ha)
                (fun n => machinery_inner_deliver resubscribe i n Hs)
                w1 r w' Hw1 Hi H) as [A B].
    split; [exact A | eapply extends_trans; eauto].
  - inversion H; subst. split; assumption.
Qed.

Lemma machinery_source_subscribe (env : environment) (fuel : nat) :
  keeps_machinery always (source_subscribe env fuel).
Proof.
  destruct machinery_inherited as (Hnext & Hcomplete & _ & _ & Hadd & Hemit).
  assert (Hmono : forall w w' : world, always w -> extends w w' -> always w').
  { intros; exact I. }
  assert (Hframe : forall (w : world) (d s : nat),
             always w -> always (set_deepest d (set_stack s w))).
  { intros; exact I. }
  assert (Hgets : forall A (f : world -> A), keeps_machinery always (gets f)).
  { intros A f w r w' Hw _ H. inversion H; subst. split; [exact Hw | apply extends_refl]. }
  induction fuel as [|fuel IH]; simpl.
  - intros w r w' Hw _ H. inversion H; subst. split; [exact Hw | apply extends_refl].
  - apply machinery_call; [exact Hframe|].
    apply machinery_bind; [exact Hmono | apply Hgets|]. intros k.
    apply machinery_bind; [exact Hmono| |].
    { intros w r w' Hw _ H. inversion H; subst.
      split; [destruct w; exact Hw | destruct w; exists []; simpl; now rewrite app_nil_r]. }
    intros _. apply machinery_bind; [exact Hmono | apply Hemit; exact I|]. intros _.
    apply machinery_bind; [exact Hmono| |intros _; apply Hadd].
    apply machinery_for_each; [exact Hmono|].
    intros [v|e|]; simpl; (apply machinery_call; [exact Hframe|]); auto.
    apply machinery_error. intros s x. now apply machinery_Subject_next.
Qed.

End OnceFacts.

(** On a stack without limit, however far the run gets, the machinery
    is in one of its three lives at the end. *)
Lemma machinery_of_run (env : Synchronous.environment) (fuel : nat) :
  let w := snd (Synchronous.run env fuel) in
  notifier_calls (trace w) <= 1 /\
  List.length (created (trace w)) <= 1 /\
  machinery_ok w.
Proof.
  cbv zeta. unfold Synchronous.run.
  destruct (Synchronous.source_subscribe env fuel initial) as [r w'] eqn:E.
  assert (H0 : machinery_ok initial).
  { left. repeat split. }
  destruct (machinery_source_subscribe env fuel initial r w' H0 I E) as [Hok _].
  simpl. split; [|split; [|exact Hok]].
  - destruct Hok as [(Hc & _) | [(Hc & _) | (Hc & _)]]; rewrite Hc; lia.
  - destruct Hok as [(_ & _ & _ & _ & Hcr)
                    | [(_ & s & r0 & i & _ & _ & _ & Hcr) | (_ & _ & _ & _ & _ & Hlen & _)]].
    + rewrite Hcr. simpl. lia.
    + rewrite Hcr. simpl. lia.
    + exact Hlen.
Qed.

(** A source given as a script of synchronous notifications, a notifier
    function that returns or throws, a notifier stream that emits only in
    answer to an error pushed into the channel, and a run that stays within
    the call stack (the depth it needs, counted without limit, is at most
    what the stack holds): however far the run gets, the notifier function
    has been called at most once, at most one notifier subscription has
    been made, and the machinery is not built, or built by that one call,
    or released for good with the subscriber stopped. *)
Theorem notifier_called_once_within_stack
        (limit : nat) (overflow : err) (env : Synchronous.environment) (fuel : nat)
        (Hroom : deepest (snd (Synchronous.run env fuel)) <= limit) :
  let w := snd (Bounded.run limit overflow env fuel) in
  notifier_calls (trace w) <= 1 /\
  List.length (created (trace w)) <= 1 /\
  machinery_ok w.
Proof.
  cbv zeta. rewrite (bounded_run_agrees limit overflow env fuel Hroom).
  exact (machinery_of_run env fuel).
Qed.

Lemma notifier_called_once_within_stack_witness :
  let w := snd (Bounded.run 10 (UserError 0) (Synchronous.retry_echo 2) 3) in
  notifier_calls (trace w) <= 1 /\
  List.length (created (trace w)) <= 1 /\
  machinery_ok w.
Proof.
  apply (notifier_called_once_within_stack 10 (UserError 0) (Synchronous.retry_echo 2) 3).
  vm_compute. repeat constructor.
Defined.
